(** * ATP player dashboard: aggregation and beeswarm layout

    A shallow embedding of the data-to-geometry pipeline of the dashboard:
    - the per-surface win-rate aggregation of
      [src/components/insights/PlayerSurfaceProfile.tsx],
    - the filtering and round grouping of the competitiveness beeswarm chart,
    - the beeswarm layout engine the chart calls.

    JavaScript numbers are modelled exactly: counters as [Z], pixel positions
    and ratios as rationals [Q].  A JavaScript [Map] whose iteration order is
    observed is an association list in insertion order; a [Map] that is only
    read through [get]/[has] is a [gmap]. *)

From Stdlib Require Import QArith Qabs Lqa.
From stdpp Require Import gmap strings list fin_maps sorting.

Open Scope Z_scope.

(** ** Records of the data set (the [types] module of the repository) *)

Inductive Surface := Hard | Clay | Grass | Carpet.

Inductive Round := R1 | R2 | R3 | R4 | QF | SF | F.

#[global] Instance Surface_eq_dec : EqDecision Surface.
Proof. solve_decision. Defined.

#[global] Instance Round_eq_dec : EqDecision Round.
Proof. solve_decision. Defined.

Definition Round_to_nat (r : Round) : nat :=
  match r with
  | R1 => 0 | R2 => 1 | R3 => 2 | R4 => 3 | QF => 4 | SF => 5 | F => 6
  end%nat.

Definition Round_of_nat (n : nat) : option Round :=
  match n with
  | 0 => Some R1 | 1 => Some R2 | 2 => Some R3 | 3 => Some R4
  | 4 => Some QF | 5 => Some SF | 6 => Some F | _ => None
  end%nat.

#[global] Program Instance Round_countable : Countable Round :=
  inj_countable Round_to_nat Round_of_nat _.
Next Obligation. by intros []. Qed.

(** Competition tiers are an enumeration of string literals. *)
Definition Series := string.

Record Match := {
  id : string;
  tournamentId : string;
  winnerId : string;
  loserId : string;
  round : Round;
  date : string
}.

Record Tournament := {
  t_id : string;
  surface : Surface;
  series : Series
}.

Record Derived := {
  matchId : string;
  rankDiff : option Q
}.

(** [new Map(xs.map(x => [key(x), x]))]: entries are inserted left to right,
    a later entry with the same key replaces the earlier one. *)
Definition Map_of {V : Type} (key : V → string) (xs : list V) : gmap string V :=
  foldl (λ m x, <[key x := x]> m) ∅ xs.

(** ** Player surface profile *)

Module SurfaceProfile.

(** The mutable [{ wins, total }] object stored per surface. *)
Record Stats := { wins : Z; total : Z }.

Record SurfaceStat := {
  s_surface : Surface;
  winRate : Q;
  s_wins : Z;
  s_total : Z
}.

Definition tournamentsMap (tournaments : list Tournament) : gmap string Tournament :=
  Map_of t_id tournaments.

(** [matches.filter(m => m.winnerId === playerId || m.loserId === playerId)] *)
Definition involves (playerId : string) (m : Match) : bool :=
  bool_decide (winnerId m = playerId) || bool_decide (loserId m = playerId).

Definition playerMatches (matches : list Match) (playerId : string) : list Match :=
  filter (λ m, involves playerId m = true) matches.

(** [Map<Surface, Stats>] in insertion order. *)
Definition StatsMap := list (Surface * Stats).

Definition has (s : Surface) (st : StatsMap) : bool :=
  existsb (λ e, bool_decide (e.1 = s)) st.

(** [set] of a key that [has] reported absent: a new last entry. *)
Definition set_new (s : Surface) (v : Stats) (st : StatsMap) : StatsMap :=
  st ++ [(s, v)].

(** [stats.total++; if (match.winnerId === playerId) stats.wins++] on the
    object stored under [s]. *)
Definition bump (won : bool) (v : Stats) : Stats :=
  {| wins := if won then wins v + 1 else wins v; total := total v + 1 |}.

Fixpoint update (s : Surface) (f : Stats → Stats) (st : StatsMap) : StatsMap :=
  match st with
  | [] => []
  | (k, v) :: rest =>
      if bool_decide (k = s) then (k, f v) :: rest else (k, v) :: update s f rest
  end.

(** One iteration of [playerMatches.forEach]. *)
Definition step (tm : gmap string Tournament) (playerId : string)
    (st : StatsMap) (m : Match) : StatsMap :=
  match tm !! tournamentId m with
  | None => st
  | Some tournament =>
      let st1 :=
        if has (surface tournament) st then st
        else set_new (surface tournament) {| wins := 0; total := 0 |} st in
      update (surface tournament) (bump (bool_decide (winnerId m = playerId))) st1
  end.

Definition surfaceStats (tm : gmap string Tournament) (playerId : string)
    (pm : list Match) : StatsMap :=
  foldl (step tm playerId) [] pm.

Definition to_stat (e : Surface * Stats) : SurfaceStat :=
  {| s_surface := e.1;
     winRate := if 0 <? total e.2 then inject_Z (wins e.2) / inject_Z (total e.2) else 0%Q;
     s_wins := wins e.2;
     s_total := total e.2 |}.

(** The [surfaceStats] array computed for one pinned player. *)
Definition computeSurfaceProfile (matches : list Match)
    (tournamentsById : gmap string Tournament) (playerId : string) : list SurfaceStat :=
  map to_stat (surfaceStats tournamentsById playerId (playerMatches matches playerId)).

End SurfaceProfile.

(** ** Competitiveness beeswarm chart: filtering and grouping by round *)

Module Competitiveness.

(** An element [{ match, derived }] of a round's group. *)
Record Pair := { p_match : Match; p_derived : Derived }.

Definition tournamentsMap (tournaments : list Tournament) : gmap string Tournament :=
  Map_of t_id tournaments.

Definition derivedMap (derived : list Derived) : gmap string Derived :=
  Map_of matchId derived.

(** Truthiness of a [string | null] prop, as tested by [if (surface)] and
    [if (series)]: [null] and the empty string are falsy. *)
Definition truthy (s : option string) : bool :=
  match s with
  | Some str => negb (String.eqb str "")
  | None => false
  end.

(** [tournament?.surface === surface] for a selected surface. *)
Definition on_surface (tm : gmap string Tournament) (s : Surface) (m : Match) : bool :=
  match tm !! tournamentId m with
  | Some tournament => bool_decide (surface tournament = s)
  | None => false
  end.

(** [tournament?.series === series] for a selected series. *)
Definition in_series (tm : gmap string Tournament) (s : Series) (m : Match) : bool :=
  match tm !! tournamentId m with
  | Some tournament => bool_decide (series tournament = s)
  | None => false
  end.

(** The three optional filters, applied in the order of the source.  A
    [Surface] is one of four non-empty string literals, hence truthy whenever
    it is not [null]. *)
Definition filteredMatches (matches : list Match) (tm : gmap string Tournament)
    (surface : option Surface) (series : option Series) (rounds : list Round)
    : list Match :=
  let fm1 :=
    match surface with
    | Some s => filter (λ m, on_surface tm s m = true) matches
    | None => matches
    end in
  let fm2 :=
    match series with
    | Some s => if truthy series then filter (λ m, in_series tm s m = true) fm1 else fm1
    | None => fm1
    end in
  if (0 <? length rounds)%nat
  then filter (λ m, round m ∈ rounds) fm2
  else fm2.

(** One iteration of [filteredMatches.forEach]: the group of the match's
    round is created on first use and the pair is pushed onto it. *)
Definition add_pair (dm : gmap string Derived)
    (groups : gmap Round (list Pair)) (m : Match) : gmap Round (list Pair) :=
  match dm !! id m with
  | Some d =>
      match rankDiff d with
      | Some _ =>
          let g1 :=
            match groups !! round m with
            | Some _ => groups
            | None => <[round m := []]> groups
            end in
          alter (λ l, l ++ [{| p_match := m; p_derived := d |}]) (round m) g1
      | None => groups
      end
  | None => groups
  end.

Definition roundGroups (dm : gmap string Derived) (fm : list Match)
    : gmap Round (list Pair) :=
  foldl (add_pair dm) ∅ fm.

(** The round-grouping operation of the chart, from its props. *)
Definition groupByRound (matches : list Match) (derived : list Derived)
    (tournaments : list Tournament) (surface : option Surface)
    (series : option Series) (rounds : list Round) : gmap Round (list Pair) :=
  roundGroups (derivedMap derived)
    (filteredMatches matches (tournamentsMap tournaments) surface series rounds).

Definition allRounds : list Round := [R1; R2; R3; R4; QF; SF; F].

Definition roundsToShow (groups : gmap Round (list Pair)) : list Round :=
  filter (λ r, is_Some (groups !! r)) allRounds.

End Competitiveness.

(** ** Beeswarm layout engine

    The chart calls [beeswarmLayout] of [utils/d3/layout], a module of the
    repository that is not among the sources at hand.  Every definition of
    this module is therefore taken from the algorithm of the specification
    (section 4.3). *)

Module Layout.

Section Beeswarm.

Context {T : Type}.

(** Modelled from the spec: an input point [{ value, payload }]. *)
Record Point := { value : Q; payload : T }.

(** Modelled from the spec: a placed point
    [{ value, payload, y, x_offset }]. *)
Record BeeswarmPoint := {
  b_value : Q;
  b_payload : T;
  y : Q;
  x_offset : Q
}.

(** Modelled from the spec: the slot width [δ = 2 × pointRadius]. *)
Definition delta (pointRadius : Q) : Q := 2 * pointRadius.

(** Modelled from the spec: the candidate offsets in the order they are
    preferred, [0, +δ, −δ, +2δ, −2δ, …]; candidate [k] is [slot_index k]
    slot widths away from zero. *)
Definition slot_index (k : nat) : Z :=
  if Nat.even k then - Z.of_nat (k / 2) else Z.of_nat (S k / 2).

Definition slot (d : Q) (k : nat) : Q := inject_Z (slot_index k) * d.

(** Modelled from the spec: two coordinates are closer than [d],
    [|a − b| < d]; at least [d] away otherwise. *)
Definition closer (d a b : Q) : bool := negb (Qle_bool d (Qabs (a - b))).

(** Modelled from the spec: a placed point whose [y] falls within
    [2 × pointRadius] of the position [py] of the current point. *)
Definition in_range (pointRadius py : Q) (q : BeeswarmPoint) : bool :=
  closer (delta pointRadius) py (y q).

(** Modelled from the spec: offset [c] keeps the centre at least
    [2 × pointRadius] away from every placed point of the active window.
    The distance is taken along the offset axis; for candidate slots and
    points in range this is the same as the distance of the centres in the
    plane (lemma [slot_distance_in_plane]). *)
Definition free (pointRadius : Q) (window : list BeeswarmPoint) (c : Q) : bool :=
  forallb (λ q, negb (closer (delta pointRadius) c (x_offset q))) window.

(** Modelled from the spec: the greedy search for the nearest available
    slot, from candidate [k] on, for at most [fuel] candidates. *)
Fixpoint search (pointRadius : Q) (window : list BeeswarmPoint)
    (fuel k : nat) : option Q :=
  match fuel with
  | O => None
  | S fuel' =>
      if free pointRadius window (slot (delta pointRadius) k)
      then Some (slot (delta pointRadius) k)
      else search pointRadius window fuel' (S k)
  end.

(** Modelled from the spec: the first free candidate.  One more candidate
    than there are points in the window is tried, which always suffices
    (lemma [pick_offset_total]). *)
Definition pick_offset (pointRadius : Q) (window : list BeeswarmPoint) : option Q :=
  search pointRadius window (S (length window)) 0.

Definition place (p : Point) (py x : Q) : BeeswarmPoint :=
  {| b_value := value p; b_payload := payload p; y := py; x_offset := x |}.

(** Modelled from the spec: the single sweep over the points sorted by
    primary position.  [window] holds the placed points still in collision
    range; the points that fell out of range are dropped from it, so a point
    out of range of all of them gets offset 0 and starts a new window. *)
Fixpoint sweep (pointRadius : Q) (window : list BeeswarmPoint)
    (sorted : list (Point * Q)) : option (list BeeswarmPoint) :=
  match sorted with
  | [] => Some []
  | (p, py) :: rest =>
      let active := filter (λ q, in_range pointRadius py q = true) window in
      x ← pick_offset pointRadius active;
      out ← sweep pointRadius (active ++ [place p py x]) rest;
      Some (place p py x :: out)
  end.

(** Modelled from the spec: the stable sort by primary position, ascending
    (an insertion sort that keeps the input order of ties). *)
Fixpoint insert_by_y (a : Point * Q) (l : list (Point * Q)) : list (Point * Q) :=
  match l with
  | [] => [a]
  | h :: t => if Qle_bool a.2 h.2 then a :: l else h :: insert_by_y a t
  end.

Definition sort_by_y (l : list (Point * Q)) : list (Point * Q) :=
  foldr insert_by_y [] l.

(** Modelled from the spec: the function [beeswarmLayout] of
    [utils/d3/layout], which the sources at hand do not contain (only its
    call in the competitiveness chart is there).  Points are mapped through
    [positionFn], sorted by the mapped position with a stable sort, and swept
    once; each point takes the first offset of [0, +δ, −δ, +2δ, −2δ, …],
    [δ = 2 × pointRadius], that is at least [2 × pointRadius] away from every
    placed point whose position is within [2 × pointRadius] of its own.  The
    result is [None] only if the bounded search for an offset fails, which
    never happens (lemma [layout_runs]). *)
Definition beeswarmLayout (points : list Point) (positionFn : Q → Q)
    (pointRadius : Q) : option (list BeeswarmPoint) :=
  sweep pointRadius [] (sort_by_y (map (λ p, (p, positionFn (value p))) points)).

End Beeswarm.

Arguments Point : clear implicits.
Arguments BeeswarmPoint : clear implicits.

End Layout.

(** ** The beeswarm of one round *)

Module Plot.

Import Competitiveness.

(** The call of the layout for the group of one round: the value of a pair
    is [d.derived.rankDiff || 0], the radius is 4.  [yScale] is the linear
    scale of the chart, built by [utils/d3/scales]; it is a parameter
    here. *)
Definition beeswarmData (yScale : Q → Q) (data : list Pair)
    : option (list (Layout.BeeswarmPoint Pair)) :=
  Layout.beeswarmLayout
    (map (λ d, {| Layout.value := default 0%Q (rankDiff (p_derived d));
                  Layout.payload := d |}) data)
    (λ val, yScale val)
    4.

End Plot.

(** ** Vocabulary of the stated properties *)

Module ProfileSpec.

Import SurfaceProfile.

(** The order in which the values of a list are first met: the head, then
    the first occurrences of the other values in the tail. *)
Fixpoint first_seen (l : list Surface) : list Surface :=
  match l with
  | [] => []
  | s :: rest => s :: filter (λ k, k ≠ s) (first_seen rest)
  end.

(** The surface a match is played on, when its tournament resolves. *)
Definition surface_of (tm : gmap string Tournament) (m : Match) : option Surface :=
  surface <$> tm !! tournamentId m.

(** A match contributes to the profile of [playerId]: the player is its
    winner or loser and its tournament is in the lookup. *)
Definition contributes (tm : gmap string Tournament) (playerId : string)
    (m : Match) : Prop :=
  involves playerId m = true ∧ is_Some (tm !! tournamentId m).

#[global] Instance contributes_dec tm playerId m : Decision (contributes tm playerId m).
Proof. unfold contributes. apply _. Defined.

Definition sum_totals (st : StatsMap) : Z :=
  foldr (λ e acc, total e.2 + acc) 0 st.

Definition sum_total (out : list SurfaceStat) : Z :=
  foldr (λ s acc, s_total s + acc) 0 out.

(** The invariant of an entry once its match has been counted. *)
Definition counted (e : Surface * Stats) : Prop :=
  0 ≤ wins e.2 ∧ wins e.2 ≤ total e.2 ∧ 1 ≤ total e.2.

End ProfileSpec.

Module GroupSpec.

Import Competitiveness.

Definition resolved (tm : gmap string Tournament) (m : Match) : Prop :=
  is_Some (tm !! tournamentId m).

(** No group holds a match whose tournament is missing from the lookup. *)
Definition drops_unresolved (tm : gmap string Tournament)
    (groups : gmap Round (list Pair)) : Prop :=
  ∀ r l p, groups !! r = Some l → p ∈ l → resolved tm (p_match p).

(** The pair pushed for a match: present when the match has a derived
    metric whose rank difference is defined. *)
Definition pair_of (dm : gmap string Derived) (m : Match) : option Pair :=
  match dm !! id m with
  | Some d =>
      match rankDiff d with
      | Some _ => Some {| p_match := m; p_derived := d |}
      | None => None
      end
  | None => None
  end.

(** What holds of every group under round [r] during the loop over [fm]. *)
Definition group_ok (dm : gmap string Derived) (fm : list Match) (r : Round)
    (l : list Pair) : Prop :=
  l ≠ [] ∧
  ∀ p, p ∈ l →
    dm !! id (p_match p) = Some (p_derived p)
    ∧ is_Some (rankDiff (p_derived p))
    ∧ round (p_match p) = r
    ∧ p_match p ∈ fm.

End GroupSpec.

Module LayoutSpec.

Import Layout.

Section Spec.

Context {T : Type}.

(** Two circles of radius [pointRadius] do not overlap: when their primary
    positions are closer than [2 × pointRadius], their offsets are at least
    [2 × pointRadius] apart. *)
Definition apart (pointRadius : Q) (a b : BeeswarmPoint T) : Prop :=
  (Qabs (y a - y b) < 2 * pointRadius)%Q →
  (2 * pointRadius <= Qabs (x_offset a - x_offset b))%Q.

(** The offset of a placed point is one of the candidate slots. *)
Definition on_slot (pointRadius : Q) (q : BeeswarmPoint T) : Prop :=
  ∃ k, x_offset q = slot (delta pointRadius) k.

(** Ascending primary positions. *)
Definition ascending (l : list (Point T * Q)) : Prop :=
  StronglySorted (λ a b, (a.2 <= b.2)%Q) l.

(** The input point a placed point was made from. *)
Definition source (b : BeeswarmPoint T) : Point T :=
  {| value := b_value b; payload := b_payload b |}.


End Spec.

End LayoutSpec.

(** ** Sample data for the examples *)

Module Demo.

Definition mk_match (i t w l : string) (r : Round) : Match :=
  {| id := i; tournamentId := t; winnerId := w; loserId := l; round := r; date := "" |}.


Definition demo_stat : SurfaceProfile.SurfaceStat :=
  {| SurfaceProfile.s_surface := Hard;
     SurfaceProfile.winRate := (2 # 1) / (3 # 1);
     SurfaceProfile.s_wins := 2;
     SurfaceProfile.s_total := 3 |}.

Definition demo_derived : list Derived :=
  [ {| matchId := "m1"; rankDiff := Some (5 # 1) |};
    {| matchId := "m2"; rankDiff := None |};
    {| matchId := "m3"; rankDiff := Some (-12 # 1) |} ].

Definition demo_matches : list Match :=
  [ mk_match "m1" "t-clay" "P1" "P2" R1;
    mk_match "m2" "t-hard" "P1" "P3" R1;
    mk_match "m3" "t-lost" "P2" "P1" QF;
    mk_match "m4" "t-hard" "P2" "P3" SF ].

Definition demo_tournaments : list Tournament :=
  [ {| t_id := "t-clay"; surface := Clay; series := "Masters" |};
    {| t_id := "t-hard"; surface := Hard; series := "Grand Slam" |} ].

End Demo.

(** ** Player surface profile: pinned players and bars *)

Module ProfileChart.

Import SurfaceProfile.

(** An element [{ id, name }] of the [players] prop. *)
Record Player := { pl_id : string; pl_name : string }.

(** An element of [playerStats]. *)
Record PlayerStat := {
  ps_playerId : string;
  ps_playerName : string;
  ps_surfaceStats : list SurfaceStat
}.

(** [players.find(p => p.id === playerId)] *)
Definition find_player (players : list Player) (playerId : string) : option Player :=
  List.find (λ p, bool_decide (pl_id p = playerId)) players.

(** [playerIds.map(playerId => ...).filter(Boolean)]: a pinned id without a
    player gives [null], which the filter removes. *)
Definition playerStats (matches : list Match) (tournaments : list Tournament)
    (players : list Player) (playerIds : list string) : list PlayerStat :=
  omap (λ playerId,
          match find_player players playerId with
          | None => None
          | Some player =>
              Some {| ps_playerId := playerId;
                      ps_playerName := pl_name player;
                      ps_surfaceStats :=
                        computeSurfaceProfile matches (tournamentsMap tournaments) playerId |}
          end) playerIds.

Definition surfaces : list Surface := [Hard; Clay; Grass; Carpet].

(** [playerData.surfaceStats.find(s => s.surface === surface)] *)
Definition stat_for (playerData : PlayerStat) (s : Surface) : option SurfaceStat :=
  List.find (λ st, bool_decide (s_surface st = s)) (ps_surfaceStats playerData).

(** [n || 0] on a number that may be [undefined]. *)
Definition or_zero (n : option Q) : Q :=
  match n with
  | Some v => if Qeq_bool v 0 then 0%Q else v
  | None => 0%Q
  end.

(** [stat?.winRate || 0] *)
Definition bar_winRate (playerData : PlayerStat) (s : Surface) : Q :=
  or_zero (winRate <$> stat_for playerData s).

(** [if (stat && stat.total > 0)]: the percentage is written above the
    bar. *)
Definition has_label (playerData : PlayerStat) (s : Surface) : bool :=
  match stat_for playerData s with
  | Some st => 0 <? s_total st
  | None => false
  end.

(** The plot area: [800 - margin.left - margin.right] by
    [400 - margin.top - margin.bottom]. *)
Definition width : Q := 800 - 100 - 80.
Definition height : Q := 400 - 40 - 60.

(** A drawn [rect]. *)
Record Rect := { r_x : Q; r_y : Q; r_width : Q; r_height : Q }.

Section Bars.

(** The band scale and the linear scale of the chart are built by
    [d3-scale]; the band position of a surface, the band width and the
    linear scale are parameters here. *)
Variable xScale : Surface → option Q.
Variable bandwidth : Q.
Variable yScale : Q → Q.

(** [xScale.bandwidth() / playerStats.length], computed after the early
    return on an empty [playerStats]. *)
Definition groupWidth (n : nat) : Q := bandwidth / inject_Z (Z.of_nat n).

(** The [rect] appended for one player and one surface. *)
Definition bar (n : nat) (playerData : PlayerStat) (playerIndex : nat)
    (s : Surface) : Rect :=
  let winRate := bar_winRate playerData s in
  {| r_x := or_zero (xScale s) + inject_Z (Z.of_nat playerIndex) * groupWidth n;
     r_y := yScale winRate;
     r_width := groupWidth n * (9 # 10);
     r_height := height - yScale winRate |}.

(** All bars in drawing order: for each player, for each surface. *)
Definition bars (stats : list PlayerStat) : list Rect :=
  mjoin (imap (λ playerIndex playerData,
                 map (bar (length stats) playerData playerIndex) surfaces) stats).

End Bars.

End ProfileChart.

Module ProfileChartSpec.

Import SurfaceProfile ProfileSpec.

(** The matches of [playerId] played on surface [s], and those among them
    the player won. *)
Definition playedOn (tm : gmap string Tournament) (playerId : string)
    (s : Surface) (matches : list Match) : list Match :=
  filter (λ m, contributes tm playerId m ∧ surface_of tm m = Some s) matches.

Definition wonOn (tm : gmap string Tournament) (playerId : string)
    (s : Surface) (matches : list Match) : list Match :=
  filter (λ m, winnerId m = playerId) (playedOn tm playerId s matches).

(** The counters held under key [s] of a statistics map. *)
Definition total_on (s : Surface) (st : StatsMap) : Z :=
  foldr (λ e acc, if bool_decide (e.1 = s) then total e.2 + acc else acc) 0 st.

Definition wins_on (s : Surface) (st : StatsMap) : Z :=
  foldr (λ e acc, if bool_decide (e.1 = s) then wins e.2 + acc else acc) 0 st.

End ProfileChartSpec.

(** ** Tooltip ([utils/d3/tooltip.ts]) *)

Module Tooltip.

(** The elements of the page a tooltip can be attached to: the body,
    another element of the page, or a tooltip element appended earlier (by
    its place in creation order). *)
Inductive Node := Body | Elem (n : nat) | Tip (i : nat).

(** The argument of [initTooltip]: a selector string or an element. *)
Inductive Container := Selector (s : string) | Element (e : Node).

(** [content: string | string[]] *)
Inductive Content := Text (s : string) | Lines (l : list string).

Record TooltipData := {
  title : option string;
  content : Content;
  x : option Q;
  y : option Q
}.

Record MouseEvent := { pageX : Q; pageY : Q }.

(** The [div] appended by [initTooltip], with the parts later calls change:
    the HTML last written to it by [.html(...)], its opacity and its [left]
    and [top] styles in pixels.  The class and the other styles are set once
    at creation and never touched again.  Where the element sits is kept in
    [parent]; a tooltip appended inside another one shows there, not in the
    [html] of the outer one. *)
Record Div := {
  parent : Node;
  html : string;
  opacity : Z;
  left : option Q;
  top : option Q
}.

(** The page and the module: the tooltip elements appended so far, in
    creation order, and the module variable [tooltip], which is [null] or
    refers to one of them. *)
Record State := { dom : list Div; tooltip : option nat }.

Definition initial : State := {| dom := []; tooltip := None |}.

(** The outcome of [document.querySelector]: the first element that
    matches, [null] when none does, or a [SyntaxError] exception when the
    string is not a valid selector. *)
Inductive Query := Found (e : Node) | NoMatch | Invalid.

Section Document.

(** [document.querySelector] on the page that holds the given tooltip
    elements (the rest of the page does not change). *)
Variable querySelector : list Div → string → Query.

Definition new_div (containerElement : Node) : Div :=
  {| parent := containerElement; html := ""; opacity := 0;
     left := None; top := None |}.

(** [typeof container === 'string'
      ? document.querySelector(container) || document.body : container];
    [None] when [querySelector] throws. *)
Definition containerElement (container : Container) (st : State) : option Node :=
  match container with
  | Selector s =>
      match querySelector (dom st) s with
      | Found e => Some e
      | NoMatch => Some Body
      | Invalid => None
      end
  | Element e => Some e
  end.

(** [initTooltip].  The result is [None] when the call throws: the
    exception of [querySelector] is raised before anything is appended or
    assigned, so the page and the module variable stay as they were. *)
Definition initTooltip (container : Container) (st : State) : option State :=
  match containerElement container st with
  | Some e =>
      Some {| dom := dom st ++ [new_div e];
              tooltip := Some (length (dom st)) |}
  | None => None
  end.

(** A chain of [.html]/[.style] calls on the current element. *)
Definition on_tooltip (f : Div → Div) (st : State) : State :=
  match tooltip st with
  | Some i => {| dom := alter f i (dom st); tooltip := tooltip st |}
  | None => st
  end.

(** [a || b] on a number that may be [undefined]. *)
Definition or_else (a : option Q) (b : Q) : Q :=
  match a with
  | Some v => if Qeq_bool v 0 then b else v
  | None => b
  end.

Definition render_content (c : Content) : string :=
  match c with
  | Lines l => String.concat "<br/>" l
  | Text s => s
  end.

Definition render (data : TooltipData) : string :=
  match title data with
  | Some t =>
      if String.eqb t "" then render_content (content data)
      else ("<strong>" ++ t ++ "</strong><br/>" ++ render_content (content data))%string
  | None => render_content (content data)
  end.

(** [showTooltip].  Its call [initTooltip(document.body)] passes an element,
    for which no selector is resolved and nothing can throw. *)
Definition showTooltip (data : TooltipData) (event : MouseEvent) (st : State) : State :=
  let st1 :=
    match tooltip st with
    | None => default st (initTooltip (Element Body) st)
    | Some _ => st
    end in
  match tooltip st1 with
  | None => st1
  | Some _ =>
      on_tooltip (λ div,
        {| parent := parent div;
           html := render data;
           opacity := 1;
           left := Some (or_else (x data) (pageX event) + 10)%Q;
           top := Some (or_else (y data) (pageY event) - 10)%Q |}) st1
  end.

Definition hideTooltip (st : State) : State :=
  on_tooltip (λ div,
    {| parent := parent div; html := html div; opacity := 0;
       left := left div; top := top div |}) st.

Definition moveTooltip (event : MouseEvent) (st : State) : State :=
  on_tooltip (λ div,
    {| parent := parent div; html := html div; opacity := opacity div;
       left := Some (pageX event + 10)%Q;
       top := Some (pageY event - 10)%Q |}) st.

(** A call of one of the four exported functions, and a sequence of calls
    made one after the other.  A call that throws leaves the page and the
    module variable as they were; the next call goes on from there. *)
Inductive Call :=
  | CallInit (container : Container)
  | CallShow (data : TooltipData) (event : MouseEvent)
  | CallHide
  | CallMove (event : MouseEvent).

Definition call (st : State) (c : Call) : State :=
  match c with
  | CallInit container => default st (initTooltip container st)
  | CallShow data event => showTooltip data event st
  | CallHide => hideTooltip st
  | CallMove event => moveTooltip event st
  end.

Definition run (st : State) (calls : list Call) : State := foldl call st calls.

End Document.

(** The element the module variable refers to. *)
Definition current (st : State) : option Div :=
  i ← tooltip st; dom st !! i.

Definition is_init (c : Call) : bool :=
  match c with CallInit _ => true | _ => false end.

Definition is_show (c : Call) : bool :=
  match c with CallShow _ _ => true | _ => false end.

Definition is_move (c : Call) : bool :=
  match c with CallMove _ => true | _ => false end.

(** The module variable refers to an element of the page. *)
Definition well_formed (st : State) : Prop :=
  match tooltip st with
  | Some i => (i < length (dom st))%nat
  | None => True
  end.

(** The state of the module as long as [initTooltip] has not been called
    explicitly: nothing yet, or one element under the page body. *)
Definition lazily_created (st : State) : Prop :=
  (tooltip st = None ∧ dom st = [])
  ∨ (tooltip st = Some 0%nat ∧ ∃ div, dom st = [div] ∧ parent div = Body).

End Tooltip.

(** ** Competitiveness chart: scale domain, circles and hover text *)

Module ChartPlot.

Import Competitiveness.

(** The result of [Math.min] and [Math.max]: a number, or an infinity when
    there is no argument. *)
Inductive Num := Finite (q : Q) | PosInfinity | NegInfinity.

Definition Math_min (l : list Q) : Num :=
  foldr (λ v acc,
           match acc with
           | Finite m => Finite (if Qle_bool v m then v else m)
           | _ => Finite v
           end) PosInfinity l.

Definition Math_max (l : list Q) : Num :=
  foldr (λ v acc,
           match acc with
           | Finite m => Finite (if Qle_bool m v then v else m)
           | _ => Finite v
           end) NegInfinity l.

(** [d.derived.rankDiff || 0] *)
Definition value_of (d : Pair) : Q := ProfileChart.or_zero (rankDiff (p_derived d)).

(** [Array.from(roundGroups.values()).flat()].  [keys] is the iteration
    order of the map: its rounds in the order they were first inserted. *)
Definition flat (keys : list Round) (groups : gmap Round (list Pair)) : list Pair :=
  keys ≫= (λ r, default [] (groups !! r)).

(** The domain passed to the linear scale. *)
Definition yDomain (keys : list Round) (groups : gmap Round (list Pair)) : Num * Num :=
  (Math_min (value_of <$> flat keys groups), Math_max (value_of <$> flat keys groups)).

(** The groups in the order [roundsToShow.forEach] draws them. *)
Definition drawn (groups : gmap Round (list Pair)) : list Pair :=
  roundsToShow groups ≫= (λ r, default [] (groups !! r)).

(** The centre [(cx, cy)] of the circle appended for a laid-out point:
    [cx] is the middle of the round's band, [cy] is [d.y]. *)
Definition circle (xPos : Q) (d : Layout.BeeswarmPoint Pair) : Q * Q :=
  (xPos, Layout.y d).

Section Hover.

(** [formatRound] and [formatInteger] of [utils/d3/formatters] are
    parameters. *)
Variable formatRound : Round → string.
Variable formatInteger : Q → string.

(** [players.find(p => p.id === id)?.name || 'Unknown'] *)
Definition display_name (players : list ProfileChart.Player) (playerId : string) : string :=
  match ProfileChart.find_player players playerId with
  | Some p => if String.eqb (ProfileChart.pl_name p) "" then "Unknown"
              else ProfileChart.pl_name p
  | None => "Unknown"
  end.

(** The tooltip shown on [mouseover] of a circle. *)
Definition hover (players : list ProfileChart.Player) (r : Round)
    (d : Layout.BeeswarmPoint Pair) : Tooltip.TooltipData :=
  let pair := Layout.b_payload d in
  {| Tooltip.title :=
       Some (display_name players (winnerId (p_match pair)) ++ " vs "
             ++ display_name players (loserId (p_match pair)))%string;
     Tooltip.content :=
       Tooltip.Lines
         [ ("Round: " ++ formatRound r)%string;
           ("Rank Diff: " ++ formatInteger (value_of pair))%string;
           ("Date: " ++ date (p_match pair))%string ];
     Tooltip.x := None;
     Tooltip.y := None |}.

End Hover.

End ChartPlot.

Module ChartSpec.

Import Competitiveness.

(** A match passes the filters that are switched on. *)
Definition passes (tm : gmap string Tournament) (selSurface : option Surface)
    (selSeries : option Series) (rounds : list Round) (m : Match) : Prop :=
  (∀ s, selSurface = Some s →
        ∃ t, tm !! tournamentId m = Some t ∧ surface t = s)
  ∧ (∀ s, selSeries = Some s → s ≠ "" →
          ∃ t, tm !! tournamentId m = Some t ∧ series t = s)
  ∧ (rounds ≠ [] → round m ∈ rounds).

(** The matches of round [r], paired with their derived metric when it has
    a rank difference. *)
Definition pairs_of_round (dm : gmap string Derived) (fm : list Match)
    (r : Round) : list Pair :=
  omap (GroupSpec.pair_of dm) (filter (λ m, round m = r) fm).

End ChartSpec.

(** ** More sample data *)

Module Demo2.

Import Demo.

Definition demo_players : list ProfileChart.Player :=
  [ {| ProfileChart.pl_id := "P1"; ProfileChart.pl_name := "Ada" |};
    {| ProfileChart.pl_id := "P2"; ProfileChart.pl_name := "Bo" |} ].

(** The band scale of four surfaces over a width of 620, padding 0.2. *)
Definition demo_xScale (s : Surface) : option Q :=
  match s with
  | Hard => Some (620 # 21)
  | Clay => Some (3720 # 21)
  | Grass => Some (6820 # 21)
  | Carpet => Some (9920 # 21)
  end.

Definition demo_bandwidth : Q := 2480 # 21.

(** The linear scale from [0, 1] onto [height, 0]. *)
Definition demo_yScale (v : Q) : Q := ProfileChart.height * (1 - v).

End Demo2.

(** * Properties of the player surface profile *)

Section SurfaceProfileFacts.

Import SurfaceProfile ProfileSpec.

Lemma filter_all {A} (P : A → Prop) `{∀ x, Decision (P x)} (l : list A) :
  (∀ x, x ∈ l → P x) → filter P l = l.
Proof.
  induction l as [|x l IH]; intros HP; [done|].
  rewrite filter_cons_True by (apply HP; left).
  rewrite IH; [done|]. intros z Hz. apply HP. by right.
Qed.

Lemma has_true s (st : StatsMap) : has s st = true ↔ s ∈ st.*1.
Proof.
  unfold has. induction st as [|[k v] st IH]; simpl.
  - split; [discriminate | intros H; inversion H].
  - rewrite orb_true_iff, IH, bool_decide_eq_true, elem_of_cons.
    split; (intros [H|H]; [left; congruence | by right]).
Qed.

Lemma update_keys s f (st : StatsMap) : (update s f st).*1 = st.*1.
Proof.
  induction st as [|[k v] st IH]; simpl; [done|].
  case_bool_decide; simpl; [done | by f_equal].
Qed.

Lemma update_absent s f (st : StatsMap) : s ∉ st.*1 → update s f st = st.
Proof.
  induction st as [|[k v] st IH]; simpl; [done|].
  rewrite not_elem_of_cons. intros [Hne Hnin].
  case_bool_decide; [congruence | by rewrite IH].
Qed.

Lemma update_app_new s f v (st : StatsMap) :
  s ∉ st.*1 → update s f (st ++ [(s, v)]) = st ++ [(s, f v)].
Proof.
  induction st as [|[k w] st IH]; simpl.
  - intros _. by rewrite bool_decide_eq_true_2.
  - rewrite not_elem_of_cons. intros [Hne Hnin].
    case_bool_decide; [congruence | by rewrite IH].
Qed.

Lemma update_sum s won (st : StatsMap) :
  s ∈ st.*1 → sum_totals (update s (bump won) st) = sum_totals st + 1.
Proof.
  induction st as [|[k v] st IH]; simpl.
  - intros H; inversion H.
  - rewrite elem_of_cons. intros Hin.
    case_bool_decide as Hk; simpl; [lia|].
    rewrite IH; [lia|]. destruct Hin; [congruence | done].
Qed.

Lemma sum_totals_app (st1 st2 : StatsMap) :
  sum_totals (st1 ++ st2) = sum_totals st1 + sum_totals st2.
Proof. induction st1 as [|e st1 IH]; simpl; [done | rewrite IH; lia]. Qed.

Lemma bump_counted k won v :
  0 ≤ wins v → wins v ≤ total v → counted (k, bump won v).
Proof. unfold counted, bump; simpl. destruct won; lia. Qed.

Lemma update_counted s won (st : StatsMap) :
  Forall counted st → Forall counted (update s (bump won) st).
Proof.
  induction 1 as [|[k v] st Hc Hrest IH]; simpl; [constructor|].
  case_bool_decide; constructor; auto.
  destruct Hc as (H0 & H1 & _). by apply bump_counted.
Qed.

(** What one iteration does to the map, by cases on the lookup. *)
Lemma step_unresolved tm playerId st m :
  tm !! tournamentId m = None → step tm playerId st m = st.
Proof. unfold step. by intros ->. Qed.

Lemma step_keys tm playerId st m t :
  tm !! tournamentId m = Some t →
  (step tm playerId st m).*1 =
    if decide (surface t ∈ st.*1) then st.*1 else st.*1 ++ [surface t].
Proof.
  unfold step. intros ->. rewrite update_keys.
  destruct (has (surface t) st) eqn:Hhas.
  - apply has_true in Hhas. by rewrite decide_True.
  - rewrite decide_False.
    + unfold set_new. by rewrite fmap_app.
    + intros Hin. apply has_true in Hin. congruence.
Qed.

Lemma step_sum tm playerId st m t :
  tm !! tournamentId m = Some t →
  sum_totals (step tm playerId st m) = sum_totals st + 1.
Proof.
  unfold step. intros ->.
  destruct (has (surface t) st) eqn:Hhas.
  - apply update_sum. by apply has_true.
  - rewrite update_sum.
    + unfold set_new. rewrite sum_totals_app. simpl. lia.
    + unfold set_new. rewrite fmap_app. set_solver.
Qed.

Lemma step_counted tm playerId st m :
  Forall counted st → Forall counted (step tm playerId st m).
Proof.
  unfold step. intros Hst. destruct (tm !! tournamentId m) as [t|]; [|done].
  destruct (has (surface t) st) eqn:Hhas.
  - by apply update_counted.
  - unfold set_new. rewrite update_app_new.
    + apply Forall_app. split; [done|]. constructor; [|constructor].
      apply bump_counted; simpl; lia.
    + intros Hin. apply has_true in Hin. congruence.
Qed.

Lemma first_seen_elem k l : k ∈ first_seen l ↔ k ∈ l.
Proof.
  induction l as [|s l IH]; simpl; [done|].
  rewrite !elem_of_cons, list_elem_of_filter, IH.
  destruct (decide (k = s)); tauto.
Qed.

(** The keys after the loop: the keys before it, then the new surfaces in
    the order they are first met. *)
Lemma foldl_step_keys tm playerId pm : ∀ st,
  (foldl (step tm playerId) st pm).*1 =
    st.*1 ++ filter (λ k, k ∉ st.*1) (first_seen (omap (surface_of tm) pm)).
Proof.
  induction pm as [|m pm IH]; intros st; simpl.
  - by rewrite app_nil_r.
  - unfold surface_of at 1. destruct (tm !! tournamentId m) as [t|] eqn:Ht; simpl.
    + rewrite IH, (step_keys _ _ _ _ _ Ht). case_decide as Hin.
      * rewrite filter_cons_False by (intros Hn; by apply Hn).
        rewrite list_filter_filter. f_equal. apply list_filter_iff.
        intros k. split; [|tauto]. intros Hk. split; [done | congruence].
      * rewrite filter_cons_True by done.
        rewrite list_filter_filter, <- app_assoc. simpl. do 2 f_equal.
        apply list_filter_iff. intros k.
        rewrite elem_of_app, list_elem_of_singleton. tauto.
    + by rewrite IH, (step_unresolved _ _ _ _ Ht).
Qed.

Lemma foldl_step_sum tm playerId pm : ∀ st,
  sum_totals (foldl (step tm playerId) st pm) =
    sum_totals st + Z.of_nat (length (filter (λ m, is_Some (tm !! tournamentId m)) pm)).
Proof.
  induction pm as [|m pm IH]; intros st; simpl; [lia|].
  rewrite IH. destruct (tm !! tournamentId m) as [t|] eqn:Ht.
  - rewrite (step_sum _ _ _ _ _ Ht), filter_cons_True by (rewrite Ht; eauto).
    simpl. lia.
  - rewrite (step_unresolved _ _ _ _ Ht), filter_cons_False; [done|].
    rewrite Ht. by intros [? ?].
Qed.

Lemma foldl_step_counted tm playerId pm : ∀ st,
  Forall counted st → Forall counted (foldl (step tm playerId) st pm).
Proof.
  induction pm as [|m pm IH]; intros st Hst; simpl; [done|].
  by apply IH, step_counted.
Qed.

(** Unresolved matches are no-ops of the loop. *)
Lemma foldl_step_resolved tm playerId pm : ∀ st,
  foldl (step tm playerId) st pm =
    foldl (step tm playerId) st (filter (λ m, is_Some (tm !! tournamentId m)) pm).
Proof.
  induction pm as [|m pm IH]; intros st; simpl; [done|].
  destruct (tm !! tournamentId m) as [t|] eqn:Ht.
  - rewrite filter_cons_True by (rewrite Ht; eauto). simpl. apply IH.
  - rewrite (step_unresolved _ _ _ _ Ht), filter_cons_False; [apply IH|].
    rewrite Ht. by intros [? ?].
Qed.

Lemma sum_total_to_stat (st : StatsMap) : sum_total (map to_stat st) = sum_totals st.
Proof. induction st as [|e st IH]; simpl; [done | by rewrite IH]. Qed.

Lemma surfaceStats_counted tm playerId pm :
  Forall counted (surfaceStats tm playerId pm).
Proof. apply foldl_step_counted. constructor. Qed.

Lemma profile_entry matches tm playerId s :
  s ∈ computeSurfaceProfile matches tm playerId →
  ∃ e, counted e ∧ s = to_stat e ∧
       e ∈ surfaceStats tm playerId (playerMatches matches playerId).
Proof.
  unfold computeSurfaceProfile. intros Hin.
  apply (list_elem_of_fmap_1 to_stat) in Hin as (e & -> & He).
  exists e. split; [|done].
  by eapply (proj1 (Forall_forall _ _) (surfaceStats_counted tm playerId _)).
Qed.

End SurfaceProfileFacts.

(** ** The claims about the surface profile *)

Section SurfaceProfileClaims.

Import SurfaceProfile ProfileSpec Demo.

(** Scenario A of the specification: two wins and a loss on hard courts. *)
Example scenario_A :
  computeSurfaceProfile
    [ mk_match "m1" "t-hard" "P1" "P2" R1;
      mk_match "m2" "t-hard" "P1" "P3" R2;
      mk_match "m3" "t-hard" "P2" "P1" QF ]
    (tournamentsMap demo_tournaments) "P1"
  = [ {| s_surface := Hard; winRate := (2 # 1) / (3 # 1); s_wins := 2; s_total := 3 |} ].
Proof. reflexivity. Qed.

(** A clay match met before a hard match puts Clay first, and a match of an
    unknown tournament adds nothing. *)
Example clay_before_hard :
  s_surface <$> computeSurfaceProfile
    [ mk_match "m1" "t-clay" "P1" "P2" R1;
      mk_match "m2" "t-lost" "P1" "P2" R1;
      mk_match "m3" "t-hard" "P2" "P1" R2 ]
    (tournamentsMap demo_tournaments) "P1"
  = [Clay; Hard].
Proof. reflexivity. Qed.

Lemma ratio_bounds (w t : Z) :
  0 ≤ w → w ≤ t → 1 ≤ t → (0 <= inject_Z w / inject_Z t <= 1)%Q.
Proof.
  intros Hw Hwt Ht.
  assert (0 < inject_Z t)%Q as Hpos.
  { change 0%Q with (inject_Z 0). rewrite <- Zlt_Qlt. lia. }
  split.
  - apply Qle_shift_div_l; [done|]. rewrite Qmult_0_l.
    change 0%Q with (inject_Z 0). rewrite <- Zle_Qle. lia.
  - apply Qle_shift_div_r; [done|]. rewrite Qmult_1_l.
    rewrite <- Zle_Qle. lia.
Qed.

(** C3: the [total] fields of the profile add up to the number of matches
    of the player whose tournament is in the lookup, and the matches whose
    tournament is absent can be removed from the input without changing the
    profile. *)
Theorem C3_totals_count_contributing_matches
    (matches : list Match) (tm : gmap string Tournament) (playerId : string) :
  sum_total (computeSurfaceProfile matches tm playerId)
    = Z.of_nat (length (filter (contributes tm playerId) matches))
  ∧ computeSurfaceProfile matches tm playerId
    = computeSurfaceProfile
        (filter (λ m, is_Some (tm !! tournamentId m)) matches) tm playerId.
Proof.
  unfold computeSurfaceProfile, surfaceStats, playerMatches. split.
  - rewrite sum_total_to_stat, foldl_step_sum. simpl.
    rewrite list_filter_filter, Z.add_0_l. f_equal. f_equal.
    apply list_filter_iff. intros m. unfold contributes. tauto.
  - f_equal. rewrite foldl_step_resolved. f_equal.
    rewrite !list_filter_filter. apply list_filter_iff. intros m. tauto.
Qed.

(** C5: every entry of the profile has a win rate between 0 and 1, equal to
    [wins / total] when [total > 0] and to 0 when [total = 0]. *)
Theorem C5_winRate_is_bounded_ratio
    (matches : list Match) (tm : gmap string Tournament) (playerId : string)
    (s : SurfaceStat) :
  s ∈ computeSurfaceProfile matches tm playerId →
  (0 <= winRate s <= 1)%Q
  ∧ (0 < s_total s → winRate s = (inject_Z (s_wins s) / inject_Z (s_total s))%Q)
  ∧ (s_total s = 0 → winRate s = 0%Q).
Proof.
  intros Hin. apply profile_entry in Hin as ([k v] & (H0 & H1 & H2) & -> & _).
  simpl in *. split; [|split].
  - destruct (Z.ltb_spec 0 (total v)); [by apply ratio_bounds | lia].
  - intros Hpos. destruct (Z.ltb_spec 0 (total v)); [done | lia].
  - intros Hz. destruct (Z.ltb_spec 0 (total v)); [lia | done].
Qed.

(** The statement above, on the sample data. *)
Lemma C5_winRate_is_bounded_ratio_witness :
  (0 <= winRate demo_stat <= 1)%Q
  ∧ (0 < s_total demo_stat →
     winRate demo_stat = (inject_Z (s_wins demo_stat) / inject_Z (s_total demo_stat))%Q)
  ∧ (s_total demo_stat = 0 → winRate demo_stat = 0%Q).
Proof.
  apply (C5_winRate_is_bounded_ratio
           [ mk_match "m1" "t-hard" "P1" "P2" R1;
             mk_match "m2" "t-hard" "P1" "P3" R2;
             mk_match "m3" "t-hard" "P2" "P1" QF ]
           (tournamentsMap demo_tournaments) "P1" demo_stat).
  vm_compute. left.
Defined.

(** C6: the surfaces of the profile are exactly the surfaces of the
    contributing matches, each once, in the order they are first met in the
    match list; every entry counts at least one match of its surface; the
    order is not the canonical Hard, Clay, Grass, Carpet. *)
Theorem C6_surfaces_in_first_seen_order
    (matches : list Match) (tm : gmap string Tournament) (playerId : string) :
  s_surface <$> computeSurfaceProfile matches tm playerId
    = first_seen (omap (surface_of tm) (playerMatches matches playerId))
  ∧ (∀ s, s ∈ computeSurfaceProfile matches tm playerId →
       1 ≤ s_total s
       ∧ ∃ m, m ∈ matches ∧ contributes tm playerId m
              ∧ surface_of tm m = Some (s_surface s))
  ∧ (∃ matches' tm' playerId',
       s_surface <$> computeSurfaceProfile matches' tm' playerId' = [Clay; Hard]).
Proof.
  assert (s_surface <$> computeSurfaceProfile matches tm playerId
          = first_seen (omap (surface_of tm) (playerMatches matches playerId)))
    as Hkeys.
  { unfold computeSurfaceProfile, surfaceStats.
    change (map to_stat) with (fmap (M:=list) to_stat).
    rewrite <- list_fmap_compose.
    change (s_surface ∘ to_stat) with (@fst Surface Stats).
    rewrite foldl_step_keys. simpl.
    rewrite filter_all; [done|]. intros k _ Hk. inversion Hk. }
  split; [done|]. split.
  - intros s Hin. split.
    + apply profile_entry in Hin as (e & (_ & _ & H1) & -> & _). done.
    + assert (s_surface s ∈ s_surface <$> computeSurfaceProfile matches tm playerId)
        as Hs by (by apply list_elem_of_fmap_2).
      rewrite Hkeys, first_seen_elem, list_elem_of_omap in Hs.
      destruct Hs as (m & Hm & Hsurf).
      unfold playerMatches in Hm. apply list_elem_of_filter in Hm as [Hinv Hm].
      exists m. split; [done|]. split; [|done]. split; [done|].
      unfold surface_of in Hsurf. destruct (tm !! tournamentId m); [eauto | done].
  - eexists _, _, _. exact clay_before_hard.
Qed.

(** C10: every entry of the profile has [0 ≤ wins ≤ total] and [total ≥ 1];
    the guard [total > 0] of the win-rate expression therefore holds and the
    win rate is always the quotient. *)
Theorem C10_counts_positive_guard_true
    (matches : list Match) (tm : gmap string Tournament) (playerId : string)
    (s : SurfaceStat) :
  s ∈ computeSurfaceProfile matches tm playerId →
  0 ≤ s_wins s ∧ s_wins s ≤ s_total s ∧ 1 ≤ s_total s
  ∧ (0 <? s_total s) = true
  ∧ winRate s = (inject_Z (s_wins s) / inject_Z (s_total s))%Q.
Proof.
  intros Hin. apply profile_entry in Hin as ([k v] & (H0 & H1 & H2) & -> & _).
  simpl in *. assert ((0 <? total v) = true) as Hg by (apply Z.ltb_lt; lia).
  rewrite Hg. done.
Qed.

(** The statement above, on the sample data. *)
Lemma C10_counts_positive_guard_true_witness :
  0 ≤ s_wins demo_stat ∧ s_wins demo_stat ≤ s_total demo_stat ∧ 1 ≤ s_total demo_stat
  ∧ (0 <? s_total demo_stat) = true
  ∧ winRate demo_stat = (inject_Z (s_wins demo_stat) / inject_Z (s_total demo_stat))%Q.
Proof.
  apply (C10_counts_positive_guard_true
           [ mk_match "m1" "t-hard" "P1" "P2" R1;
             mk_match "m2" "t-hard" "P1" "P3" R2;
             mk_match "m3" "t-hard" "P2" "P1" QF ]
           (tournamentsMap demo_tournaments) "P1" demo_stat).
  vm_compute. left.
Defined.

End SurfaceProfileClaims.

(** * Properties of the round grouping *)

Section RoundGroupFacts.

Import Competitiveness GroupSpec.

(** A map built from a list is keyed by the key of each stored value. *)
Lemma Map_of_lookup {V} (key : V → string) (xs : list V) k v :
  Map_of key xs !! k = Some v → key v = k ∧ v ∈ xs.
Proof.
  unfold Map_of.
  assert (∀ m0 : gmap string V,
    (∀ k v, m0 !! k = Some v → key v = k ∧ v ∈ xs) →
    ∀ ys, (∀ y, y ∈ ys → y ∈ xs) →
    ∀ k v, foldl (λ m x, <[key x := x]> m) m0 ys !! k = Some v →
           key v = k ∧ v ∈ xs) as Hgen.
  { intros m0 H0 ys. revert m0 H0.
    induction ys as [|y ys IH]; intros m0 H0 Hys k' v'; simpl; [apply H0|].
    apply IH.
    - intros k'' v''. rewrite lookup_insert. case_decide as Hk.
      + intros [= <-]. split; [done|]. apply Hys. left.
      + apply H0.
    - intros z Hz. apply Hys. by right. }
  apply (Hgen ∅); [|done]. intros k' v'. by rewrite lookup_empty.
Qed.

Lemma add_pair_lookup dm (groups : gmap Round (list Pair)) m r :
  add_pair dm groups m !! r =
    match pair_of dm m with
    | Some p =>
        if decide (round m = r)
        then Some (default [] (groups !! r) ++ [p])
        else groups !! r
    | None => groups !! r
    end.
Proof.
  unfold add_pair, pair_of.
  destruct (dm !! id m) as [d|]; [|done].
  destruct (rankDiff d); [|done].
  case_decide as Hr.
  - subst r. rewrite lookup_alter_eq.
    destruct (groups !! round m) as [l|] eqn:Hl.
    + by rewrite Hl.
    + by rewrite lookup_insert_eq.
  - rewrite lookup_alter_ne by done.
    destruct (groups !! round m); [done|]. by rewrite lookup_insert_ne.
Qed.

Lemma pair_of_Some dm m p :
  pair_of dm m = Some p →
  p_match p = m ∧ dm !! id m = Some (p_derived p) ∧ is_Some (rankDiff (p_derived p)).
Proof.
  unfold pair_of. destruct (dm !! id m) as [d|]; [|done].
  destruct (rankDiff d) eqn:Hd; [|done]. intros [= <-]. simpl.
  rewrite Hd. eauto.
Qed.

Lemma group_ok_mono dm fm fm' r l :
  (∀ m, m ∈ fm → m ∈ fm') → group_ok dm fm r l → group_ok dm fm' r l.
Proof.
  intros Hsub [Hne Hall]. split; [done|]. intros p Hp.
  destruct (Hall p Hp) as (? & ? & ? & ?). eauto.
Qed.

(** The loop invariant: every stored group is non-empty and holds only
    consistent pairs of matches seen so far. *)
Lemma roundGroups_inv dm (fm : list Match) : ∀ (seen : list Match) groups,
  (∀ r l, groups !! r = Some l → group_ok dm seen r l) →
  ∀ r l, foldl (add_pair dm) groups fm !! r = Some l → group_ok dm (seen ++ fm) r l.
Proof.
  induction fm as [|m fm IH]; intros seen groups Hinv r l; simpl.
  - rewrite app_nil_r. apply Hinv.
  - intros Hl. replace (seen ++ m :: fm) with ((seen ++ [m]) ++ fm)
      by (by rewrite <- app_assoc).
    apply (IH (seen ++ [m]) (add_pair dm groups m)); [|done].
    clear r l Hl. intros r l. rewrite add_pair_lookup.
    assert (∀ l0, groups !! r = Some l0 → group_ok dm (seen ++ [m]) r l0) as Hold.
    { intros l0 Hl0. eapply group_ok_mono; [|by apply Hinv].
      intros x Hx. apply elem_of_app. by left. }
    destruct (pair_of dm m) as [p|] eqn:Hp; [|apply Hold].
    case_decide as Hr; [|apply Hold].
    intros [= <-]. apply pair_of_Some in Hp as (Hm & Hd & Hrd).
    split; [by destruct (default [] (groups !! r))|].
    intros q. rewrite elem_of_app, list_elem_of_singleton. intros [Hq | ->].
    + destruct (groups !! r) as [l0|] eqn:Hl0; simpl in Hq; [|inversion Hq].
      by apply (Hold l0).
    + rewrite Hm. repeat split; try done.
      apply elem_of_app. right. by apply list_elem_of_singleton.
Qed.

Lemma roundGroups_ok dm fm r l :
  roundGroups dm fm !! r = Some l → group_ok dm fm r l.
Proof.
  intros Hl. apply (roundGroups_inv dm fm [] ∅); [|done].
  intros r' l'. by rewrite lookup_empty.
Qed.

(** The surviving matches are among the input, and passed every filter that
    was switched on. *)
Lemma filteredMatches_elem matches tm surface series rounds m :
  m ∈ filteredMatches matches tm surface series rounds →
  m ∈ matches
  ∧ (∀ s, surface = Some s → on_surface tm s m = true)
  ∧ (∀ s, series = Some s → truthy series = true → in_series tm s m = true)
  ∧ (rounds ≠ [] → round m ∈ rounds).
Proof.
  unfold filteredMatches. intros Hm.
  assert (m ∈ match series with
              | Some s => if truthy series
                          then filter (λ m, in_series tm s m = true)
                                 match surface with
                                 | Some s0 => filter (λ m, on_surface tm s0 m = true) matches
                                 | None => matches
                                 end
                          else match surface with
                               | Some s0 => filter (λ m, on_surface tm s0 m = true) matches
                               | None => matches
                               end
              | None => match surface with
                        | Some s0 => filter (λ m, on_surface tm s0 m = true) matches
                        | None => matches
                        end
              end
          ∧ (rounds ≠ [] → round m ∈ rounds)) as [Hm2 Hr].
  { destruct rounds as [|r0 rounds]; simpl in Hm; [done|].
    apply list_elem_of_filter in Hm as [? ?]. done. }
  clear Hm.
  assert (m ∈ match surface with
              | Some s0 => filter (λ m, on_surface tm s0 m = true) matches
              | None => matches
              end
          ∧ (∀ s, series = Some s → truthy series = true → in_series tm s m = true))
    as [Hm1 Hs].
  { destruct series as [s|]; [|done].
    destruct (truthy (Some s)) eqn:Ht; [|done].
    apply list_elem_of_filter in Hm2 as [? ?]. split; [done|].
    by intros s' [= <-] _. }
  clear Hm2.
  destruct surface as [s0|].
  - apply list_elem_of_filter in Hm1 as [? ?]. repeat split; try done.
    by intros s' [= <-].
  - repeat split; done.
Qed.

Lemma on_surface_resolved tm s m : on_surface tm s m = true → resolved tm m.
Proof. unfold on_surface, resolved. destruct (tm !! tournamentId m); [eauto | done]. Qed.

Lemma in_series_resolved tm s m : in_series tm s m = true → resolved tm m.
Proof. unfold in_series, resolved. destruct (tm !! tournamentId m); [eauto | done]. Qed.

(** With a surface or a series filter switched on, removing the matches of
    unknown tournaments beforehand changes nothing. *)
Lemma filteredMatches_resolved matches tm surface series rounds :
  is_Some surface ∨ truthy series = true →
  filteredMatches (filter (resolved tm) matches) tm surface series rounds
  = filteredMatches matches tm surface series rounds.
Proof.
  intros Hon. unfold filteredMatches. destruct surface as [s0|].
  - assert (filter (λ m, on_surface tm s0 m = true) (filter (resolved tm) matches)
            = filter (λ m, on_surface tm s0 m = true) matches) as ->; [|done].
    rewrite list_filter_filter. apply list_filter_iff.
    intros m. split; [tauto|]. intros H. split; [done|].
    by eapply on_surface_resolved.
  - destruct Hon as [[? [=]]|Ht]. destruct series as [s|]; [|done].
    rewrite Ht.
    assert (filter (λ m, in_series tm s m = true) (filter (resolved tm) matches)
            = filter (λ m, in_series tm s m = true) matches) as ->; [|done].
    rewrite list_filter_filter. apply list_filter_iff.
    intros m. split; [tauto|]. intros H. split; [done|].
    by eapply in_series_resolved.
Qed.

End RoundGroupFacts.

(** ** The claims about the round grouping *)

Section RoundGroupClaims.

Import Competitiveness GroupSpec Demo.

(** With no filter, the quarter-final of the unknown tournament ["t-lost"]
    is grouped; the first-round match without a rank difference is not. *)
Example demo_groups_no_filter :
  (λ r, (r, groupByRound demo_matches demo_derived demo_tournaments None None [] !! r))
    <$> roundsToShow (groupByRound demo_matches demo_derived demo_tournaments None None [])
  = [ (R1, Some [ {| p_match := mk_match "m1" "t-clay" "P1" "P2" R1;
                p_derived := {| matchId := "m1"; rankDiff := Some (5 # 1) |} |} ]);
      (QF, Some [ {| p_match := mk_match "m3" "t-lost" "P2" "P1" QF;
                p_derived := {| matchId := "m3"; rankDiff := Some (-12 # 1) |} |} ]) ].
Proof. vm_compute. reflexivity. Qed.

(** With a surface filter the same match is gone, and so is its round. *)
Example demo_groups_clay :
  (λ r, (r, groupByRound demo_matches demo_derived demo_tournaments (Some Clay) None [] !! r))
    <$> roundsToShow (groupByRound demo_matches demo_derived demo_tournaments (Some Clay) None [])
  = [ (R1, Some [ {| p_match := mk_match "m1" "t-clay" "P1" "P2" R1;
                p_derived := {| matchId := "m1"; rankDiff := Some (5 # 1) |} |} ]) ].
Proof. vm_compute. reflexivity. Qed.

(** C2, as stated, fails: without a surface or series filter the tournament
    of a match is never looked up, and a match of an unknown tournament is
    grouped. *)
Lemma C2_unfiltered_keeps_unresolved :
  ¬ (∀ matches derived tournaments surface series rounds,
       drops_unresolved (tournamentsMap tournaments)
         (groupByRound matches derived tournaments surface series rounds)).
Proof.
  intros H.
  specialize (H demo_matches demo_derived demo_tournaments None None [] QF
    [ {| p_match := mk_match "m3" "t-lost" "P2" "P1" QF;
         p_derived := {| matchId := "m3"; rankDiff := Some (-12 # 1) |} |} ]
    {| p_match := mk_match "m3" "t-lost" "P2" "P1" QF;
       p_derived := {| matchId := "m3"; rankDiff := Some (-12 # 1) |} |}).
  assert (resolved (tournamentsMap demo_tournaments) (mk_match "m3" "t-lost" "P2" "P1" QF))
    as [t Ht].
  { apply H; [vm_compute; reflexivity | left]. }
  vm_compute in Ht. discriminate Ht.
Qed.

(** C2, amended: when a surface filter or a series filter is supplied, no
    group holds a match whose tournament is missing from the lookup, and
    removing such matches from the input leaves the grouping unchanged. *)
Theorem C2_filters_drop_unresolved
    (matches : list Match) (derived : list Derived) (tournaments : list Tournament)
    (surface : option Surface) (series : option Series) (rounds : list Round) :
  is_Some surface ∨ truthy series = true →
  drops_unresolved (tournamentsMap tournaments)
    (groupByRound matches derived tournaments surface series rounds)
  ∧ groupByRound (filter (resolved (tournamentsMap tournaments)) matches)
      derived tournaments surface series rounds
    = groupByRound matches derived tournaments surface series rounds.
Proof.
  intros Hon. split.
  - intros r l p Hl Hp. unfold groupByRound in Hl.
    apply roundGroups_ok in Hl as [_ Hall].
    destruct (Hall p Hp) as (_ & _ & _ & Hm).
    apply filteredMatches_elem in Hm as (_ & Hsurf & Hser & _).
    destruct surface as [s0|].
    + eapply on_surface_resolved. by apply Hsurf.
    + destruct Hon as [[? [=]]|Ht]. destruct series as [s|]; [|done].
      eapply in_series_resolved. by apply Hser.
  - unfold groupByRound. by rewrite filteredMatches_resolved.
Qed.

(** The statement above, on the sample data. *)
Lemma C2_filters_drop_unresolved_witness :
  drops_unresolved (tournamentsMap demo_tournaments)
    (groupByRound demo_matches demo_derived demo_tournaments (Some Clay) None [])
  ∧ groupByRound (filter (resolved (tournamentsMap demo_tournaments)) demo_matches)
      demo_derived demo_tournaments (Some Clay) None []
    = groupByRound demo_matches demo_derived demo_tournaments (Some Clay) None [].
Proof.
  apply (C2_filters_drop_unresolved demo_matches demo_derived demo_tournaments
           (Some Clay) None []).
  left. exists Clay. reflexivity.
Defined.

(** C7: a group stored under a round is never empty, and every match in it
    has a derived metric in the lookup whose rank difference is defined; a
    match without one is in no group. *)
Theorem C7_groups_nonempty_with_metric
    (matches : list Match) (derived : list Derived) (tournaments : list Tournament)
    (surface : option Surface) (series : option Series) (rounds : list Round)
    (r : Round) (l : list Pair) :
  groupByRound matches derived tournaments surface series rounds !! r = Some l →
  l ≠ []
  ∧ (∀ p, p ∈ l →
       ∃ d, derivedMap derived !! id (p_match p) = Some d ∧ is_Some (rankDiff d))
  ∧ (∀ m, (∀ d, derivedMap derived !! id m = Some d → rankDiff d = None) →
       ∀ p, p ∈ l → p_match p ≠ m).
Proof.
  intros Hl. unfold groupByRound in Hl. apply roundGroups_ok in Hl as [Hne Hall].
  split; [done|]. split.
  - intros p Hp. destruct (Hall p Hp) as (Hd & Hrd & _). eauto.
  - intros m Hm p Hp <-. destruct (Hall p Hp) as (Hd & [q Hq] & _).
    rewrite (Hm _ Hd) in Hq. discriminate.
Qed.

(** The statement above, on the sample data. *)
Lemma C7_groups_nonempty_with_metric_witness :
  [ {| p_match := mk_match "m1" "t-clay" "P1" "P2" R1;
       p_derived := {| matchId := "m1"; rankDiff := Some (5 # 1) |} |} ] ≠ []
  ∧ (∀ p, p ∈ [ {| p_match := mk_match "m1" "t-clay" "P1" "P2" R1;
                   p_derived := {| matchId := "m1"; rankDiff := Some (5 # 1) |} |} ] →
       ∃ d, derivedMap demo_derived !! id (p_match p) = Some d ∧ is_Some (rankDiff d))
  ∧ (∀ m, (∀ d, derivedMap demo_derived !! id m = Some d → rankDiff d = None) →
       ∀ p, p ∈ [ {| p_match := mk_match "m1" "t-clay" "P1" "P2" R1;
                     p_derived := {| matchId := "m1"; rankDiff := Some (5 # 1) |} |} ] →
            p_match p ≠ m).
Proof.
  apply (C7_groups_nonempty_with_metric demo_matches demo_derived demo_tournaments
           None None [] R1).
  vm_compute. reflexivity.
Defined.

(** C9: every pair stored in a group pairs a match with its own derived
    record, whose rank difference is defined, under the round of the
    match. *)
Theorem C9_pairs_self_consistent
    (matches : list Match) (derived : list Derived) (tournaments : list Tournament)
    (surface : option Surface) (series : option Series) (rounds : list Round)
    (r : Round) (l : list Pair) (p : Pair) :
  groupByRound matches derived tournaments surface series rounds !! r = Some l →
  p ∈ l →
  matchId (p_derived p) = id (p_match p)
  ∧ is_Some (rankDiff (p_derived p))
  ∧ round (p_match p) = r.
Proof.
  intros Hl Hp. unfold groupByRound in Hl. apply roundGroups_ok in Hl as [_ Hall].
  destruct (Hall p Hp) as (Hd & Hrd & Hr & _).
  apply Map_of_lookup in Hd as [Hk _]. done.
Qed.

(** The statement above, on the sample data. *)
Lemma C9_pairs_self_consistent_witness :
  matchId {| matchId := "m3"; rankDiff := Some (-12 # 1) |}
    = id (mk_match "m3" "t-lost" "P2" "P1" QF)
  ∧ is_Some (rankDiff {| matchId := "m3"; rankDiff := Some (-12 # 1) |})
  ∧ round (mk_match "m3" "t-lost" "P2" "P1" QF) = QF.
Proof.
  apply (C9_pairs_self_consistent demo_matches demo_derived demo_tournaments
           None None [] QF
           [ {| p_match := mk_match "m3" "t-lost" "P2" "P1" QF;
                p_derived := {| matchId := "m3"; rankDiff := Some (-12 # 1) |} |} ]
           {| p_match := mk_match "m3" "t-lost" "P2" "P1" QF;
              p_derived := {| matchId := "m3"; rankDiff := Some (-12 # 1) |} |}).
  - vm_compute. reflexivity.
  - left.
Defined.

End RoundGroupClaims.

(** * Properties of the beeswarm layout *)

Section LayoutFacts.

Import Layout LayoutSpec.

Context {T : Type}.

Implicit Types (w out : list (BeeswarmPoint T)) (sorted : list (Point T * Q)).

Lemma closer_true d a b : closer d a b = true ↔ (Qabs (a - b) < d)%Q.
Proof.
  unfold closer. rewrite negb_true_iff, <- not_true_iff_false, Qle_bool_iff.
  split; [apply Qnot_le_lt | apply Qlt_not_le].
Qed.

Lemma closer_false d a b : closer d a b = false ↔ (d <= Qabs (a - b))%Q.
Proof. unfold closer. by rewrite negb_false_iff, Qle_bool_iff. Qed.

Lemma Qabs_swap a b : (Qabs (a - b) == Qabs (b - a))%Q.
Proof.
  rewrite <- (Qabs_opp (b - a)). apply Qabs_wd. ring.
Qed.


Lemma slot_index_cases k :
  (∃ j : nat, k = (2 * j)%nat ∧ slot_index k = - Z.of_nat j)
  ∨ (∃ j : nat, k = (2 * j + 1)%nat ∧ slot_index k = Z.of_nat j + 1).
Proof.
  unfold slot_index. destruct (Nat.even k) eqn:He.
  - left. apply Nat.even_spec in He as [j ->]. exists j. split; [done|].
    by rewrite (Nat.mul_comm 2 j), Nat.div_mul.
  - right. assert (Nat.odd k = true) as Ho by (by rewrite <- Nat.negb_even, He).
    apply Nat.odd_spec in Ho as [j ->]. exists j. split; [done|].
    replace (S (2 * j + 1)) with ((j + 1) * 2)%nat by lia.
    rewrite Nat.div_mul by done. lia.
Qed.

Lemma slot_index_inj k m : slot_index k = slot_index m → k = m.
Proof.
  destruct (slot_index_cases k) as [(j & -> & ->)|(j & -> & ->)],
           (slot_index_cases m) as [(i & -> & ->)|(i & -> & ->)]; lia.
Qed.

(** Two different candidates are at least one slot width apart. *)
Lemma slot_far d k m :
  (0 < d)%Q → k ≠ m → (d <= Qabs (slot d k - slot d m))%Q.
Proof.
  intros Hd Hkm. unfold slot.
  assert (slot_index k ≠ slot_index m) as Hne by (intros ?; by apply Hkm, slot_index_inj).
  set (a := slot_index k) in *. set (b := slot_index m) in *.
  assert (inject_Z a * d - inject_Z b * d == inject_Z (a - b) * d)%Q as ->.
  { unfold Z.sub. rewrite inject_Z_plus, inject_Z_opp. ring. }
  destruct (Z_lt_le_dec a b) as [Hlt|Hge].
  - assert (inject_Z (a - b) <= inject_Z (-1))%Q as H1 by (rewrite <- Zle_Qle; lia).
    rewrite <- Qabs_opp. eapply Qle_trans; [|apply Qle_Qabs].
    change (inject_Z (-1)) with (-1)%Q in H1. nra.
  - assert (inject_Z 1 <= inject_Z (a - b))%Q as H1 by (rewrite <- Zle_Qle; lia).
    eapply Qle_trans; [|apply Qle_Qabs].
    change (inject_Z 1) with 1%Q in H1. nra.
Qed.

(** For a candidate slot and a placed point in collision range, being a slot
    width apart on the offset axis is the same as the two centres being a
    slot width apart in the plane. *)
Lemma slot_distance_in_plane d k m py yq :
  (Qabs (py - yq) < d)%Q →
  (d <= Qabs (slot d k - slot d m))%Q
  ↔ (d * d <= (slot d k - slot d m) * (slot d k - slot d m)
              + (py - yq) * (py - yq))%Q.
Proof.
  generalize (py - yq)%Q. intros t Hy.
  assert (0 < d)%Q as Hd by (pose proof (Qabs_nonneg t); lra).
  apply Qabs_Qlt_condition in Hy as [Hy1 Hy2].
  destruct (decide (k = m)) as [->|Hne].
  - assert (slot d m - slot d m == 0)%Q as -> by ring.
    change (Qabs 0) with 0%Q. split; [lra|]. intros Hplane. exfalso.
    assert (0 < (d - t) * (d + t))%Q as Hprod by (apply Qmult_lt_0_compat; lra).
    lra.
  - pose proof (slot_far d k m Hd Hne) as Hfar. split; [|done]. intros _.
    revert Hfar. generalize (slot d k - slot d m)%Q. intros s Hfar.
    assert (0 <= t * t)%Q as Hsq by nra.
    revert Hfar. apply Qabs_case; intros _ Hfar.
    + assert (0 <= (s - d) * (s + d))%Q by (apply Qmult_le_0_compat; lra). lra.
    + assert (0 <= (- s - d) * (- s + d))%Q by (apply Qmult_le_0_compat; lra). lra.
Qed.

Lemma free_true r w c :
  free r w c = true ↔ ∀ q, q ∈ w → (delta r <= Qabs (c - x_offset q))%Q.
Proof.
  unfold free. rewrite forallb_forall. split.
  - intros H q Hq. apply closer_false, negb_true_iff, H. by apply list_elem_of_In.
  - intros H q Hq. apply negb_true_iff, closer_false, H. by apply list_elem_of_In.
Qed.

Lemma free_false r w c :
  free r w c = false → ∃ q, q ∈ w ∧ closer (delta r) c (x_offset q) = true.
Proof.
  unfold free. induction w as [|q w IH]; simpl; [done|].
  rewrite andb_false_iff, negb_false_iff. intros [Hq|Hw].
  - exists q. split; [left | done].
  - destruct (IH Hw) as (q' & Hin & Hc). exists q'. split; [by right | done].
Qed.

Lemma search_Some r w fuel : ∀ k x,
  search r w fuel k = Some x →
  free r w x = true ∧ ∃ i, x = slot (delta r) i.
Proof.
  induction fuel as [|fuel IH]; intros k x; simpl; [done|].
  destruct (free r w (slot (delta r) k)) eqn:Hf.
  - intros [= <-]. eauto.
  - apply IH.
Qed.

Lemma search_None r w fuel : ∀ k,
  search r w fuel k = None →
  ∀ i, (k ≤ i < k + fuel)%nat → free r w (slot (delta r) i) = false.
Proof.
  induction fuel as [|fuel IH]; intros k; simpl; [lia|].
  destruct (free r w (slot (delta r) k)) eqn:Hf; [done|].
  intros Hs i Hi. destruct (decide (i = k)) as [->|Hne]; [done|].
  apply (IH (S k) Hs). lia.
Qed.


Lemma slot_inj d k m : (0 < d)%Q → slot d k = slot d m → k = m.
Proof.
  intros Hd Heq. destruct (decide (k = m)) as [|Hne]; [done|].
  pose proof (slot_far d k m Hd Hne) as Hfar. rewrite Heq in Hfar.
  assert (slot d m - slot d m == 0)%Q as Hz by ring.
  rewrite Hz in Hfar. change (Qabs 0) with 0%Q in Hfar. lra.
Qed.

(** A candidate that collides with a placed point is the slot of that
    point. *)
Lemma busy_slot r w i :
  (0 < delta r)%Q → Forall (on_slot r) w →
  free r w (slot (delta r) i) = false →
  slot (delta r) i ∈ x_offset <$> w.
Proof.
  intros Hd Hw Hbusy. apply free_false in Hbusy as (q & Hq & Hc).
  pose proof (proj1 (Forall_forall _ _) Hw q Hq) as [m Hm].
  apply closer_true in Hc. rewrite Hm in Hc.
  destruct (decide (i = m)) as [->|Hne].
  - rewrite <- Hm. by apply list_elem_of_fmap_2.
  - pose proof (slot_far (delta r) i m Hd Hne). lra.
Qed.

(** Among the first [length w + 1] candidates one is free: the search for
    an offset always succeeds. *)
Lemma pick_offset_total r w :
  Forall (on_slot r) w → is_Some (pick_offset r w).
Proof.
  intros Hw. unfold pick_offset.
  destruct (Qlt_le_dec 0 (delta r)) as [Hd|Hd].
  - destruct (search r w (S (length w)) 0) as [x|] eqn:Hs; [eauto|].
    exfalso.
    assert (∀ i, (i < S (length w))%nat → slot (delta r) i ∈ x_offset <$> w) as Hall.
    { intros i Hi. apply busy_slot; [done..|].
      apply (search_None _ _ _ _ Hs). lia. }
    assert (NoDup (slot (delta r) <$> seq 0 (S (length w)))) as Hnd.
    { apply NoDup_fmap_2_strong; [|apply NoDup_seq].
      intros k m _ _. by apply slot_inj. }
    assert (length (slot (delta r) <$> seq 0 (S (length w)))
            ≤ length (x_offset <$> w))%nat as Hlen.
    { apply submseteq_length, NoDup_submseteq; [done|].
      intros x Hx. apply list_elem_of_fmap in Hx as (i & -> & Hi).
      apply Hall. apply elem_of_seq in Hi. lia. }
    rewrite !length_fmap, length_seq in Hlen. lia.
  - simpl. assert (free r w (slot (delta r) 0) = true) as ->; [|eauto].
    apply free_true. intros q _.
    pose proof (Qabs_nonneg (slot (delta r) 0 - x_offset q)). lra.
Qed.

Lemma sweep_total r sorted : ∀ w,
  Forall (on_slot r) w → is_Some (sweep r w sorted).
Proof.
  induction sorted as [|[p py] rest IH]; intros w Hw; simpl; [eauto|].
  assert (Forall (on_slot r) (filter (λ q, in_range r py q = true) w)) as Hact.
  { apply Forall_forall. intros q Hq. apply list_elem_of_filter in Hq as [_ Hq].
    by apply (proj1 (Forall_forall _ _) Hw). }
  destruct (pick_offset_total r _ Hact) as [x Hx]. rewrite Hx. simpl.
  destruct (IH (filter (λ q, in_range r py q = true) w ++ [place p py x])) as [out Hout].
  - apply Forall_app. split; [done|]. constructor; [|constructor].
    apply search_Some in Hx as [_ [i ->]]. by exists i.
  - rewrite Hout. simpl. eauto.
Qed.

(** One step of a sweep that is known to return: names the offset picked
    for the current point and the output of the rest of the sweep. *)
Ltac sweep_step x Hx out' Hs :=
  destruct (pick_offset _ _) as [x|] eqn:Hx; simpl; [|done];
  destruct (sweep _ _ _) as [out'|] eqn:Hs; simpl; [|done];
  intros [= <-].

(** The sweep emits the sorted points in order, each with its primary
    position. *)
Lemma sweep_sources r sorted : ∀ w out,
  sweep r w sorted = Some out → (λ b, (source b, y b)) <$> out = sorted.
Proof.
  induction sorted as [|[p py] rest IH]; intros w out; simpl.
  - by intros [= <-].
  - sweep_step x Hx out' Hs. rewrite fmap_cons, (IH _ _ Hs). by destruct p.
Qed.

Lemma sweep_elem r sorted w out b :
  sweep r w sorted = Some out → b ∈ out → (source b, y b) ∈ sorted.
Proof.
  intros Hs Hb. rewrite <- (sweep_sources _ _ _ _ Hs).
  by apply (list_elem_of_fmap_2 (λ b, (source b, y b))).
Qed.

Lemma insert_by_y_perm (a : Point T * Q) l : insert_by_y a l ≡ₚ a :: l.
Proof.
  induction l as [|h t IH]; simpl; [done|].
  destruct (Qle_bool a.2 h.2); [done|].
  rewrite IH. apply perm_swap.
Qed.

Lemma sort_by_y_perm (l : list (Point T * Q)) : sort_by_y l ≡ₚ l.
Proof.
  induction l as [|a l IH]; simpl; [done|].
  by rewrite insert_by_y_perm, IH.
Qed.

Lemma insert_by_y_ascending (a : Point T * Q) l :
  ascending l → ascending (insert_by_y a l).
Proof.
  unfold ascending. induction 1 as [|h t Hsorted IH Hh]; simpl.
  - repeat constructor.
  - destruct (Qle_bool a.2 h.2) eqn:Hle.
    + apply Qle_bool_iff in Hle. constructor; [by constructor|].
      constructor; [done|]. eapply Forall_impl; [exact Hh|].
      intros e He. simpl in He. lra.
    + assert (h.2 <= a.2)%Q as Hlt.
      { apply Qlt_le_weak, Qnot_le_lt. intros Hc.
        apply Qle_bool_iff in Hc. congruence. }
      constructor; [done|]. rewrite insert_by_y_perm. by constructor.
Qed.

Lemma sort_by_y_ascending (l : list (Point T * Q)) : ascending (sort_by_y l).
Proof.
  induction l as [|a l IH]; simpl; [constructor|].
  by apply insert_by_y_ascending.
Qed.

Lemma apart_sym r (a b : BeeswarmPoint T) : apart r a b → apart r b a.
Proof.
  unfold apart. intros H Hy.
  rewrite (Qabs_swap (x_offset b)). apply H. by rewrite (Qabs_swap (y a)).
Qed.

(** Every point emitted by the sweep is clear of every point of the window
    the sweep started from. *)
Lemma sweep_window r sorted : ∀ w out,
  ascending sorted →
  (∀ q e, q ∈ w → e ∈ sorted → (y q <= e.2)%Q) →
  sweep r w sorted = Some out →
  ∀ q b, q ∈ w → b ∈ out → apart r q b.
Proof.
  induction sorted as [|[p py] rest IH]; intros w out Hasc Hbelow; simpl.
  - intros [= <-] q b _ Hb. inversion Hb.
  - sweep_step x Hx out' Hs. intros q b Hq Hb.
    apply StronglySorted_inv in Hasc as [Hrest Hpy].
    apply search_Some in Hx as [Hfree _].
    assert (y q <= py)%Q as Hqp by (apply (Hbelow q (p, py) Hq); left).
    destruct (in_range r py q) eqn:Hrange.
    + (* [q] stays in the active window *)
      assert (q ∈ filter (λ q, in_range r py q = true) w) as Hact
        by (by apply list_elem_of_filter).
      apply elem_of_cons in Hb as [->|Hb].
      * intros _. rewrite Qabs_swap. simpl.
        by apply (proj1 (free_true _ _ _) Hfree).
      * apply (IH _ _ Hrest) with (q := q) (b := b) in Hs; [done| |by apply elem_of_app; left|done].
        intros q' e Hq' He. apply elem_of_app in Hq' as [Hq'|Hq'].
        -- apply list_elem_of_filter in Hq' as [_ Hq']. apply Hbelow; [done | by right].
        -- apply list_elem_of_singleton in Hq' as ->. simpl.
           by apply (proj1 (Forall_forall _ _) Hpy e).
    + (* [q] has left the collision range for good *)
      apply closer_false in Hrange. unfold delta in Hrange.
      assert (y q <= y b)%Q as Hqb.
      { apply elem_of_cons in Hb as [->|Hb]; [done|].
        apply (sweep_elem _ _ _ _ _ Hs) in Hb.
        pose proof (proj1 (Forall_forall _ _) Hpy _ Hb) as Hle. simpl in Hle. lra. }
      assert (py <= y b)%Q as Hpb.
      { apply elem_of_cons in Hb as [->|Hb]; [simpl; lra|].
        apply (sweep_elem _ _ _ _ _ Hs) in Hb.
        by apply (proj1 (Forall_forall _ _) Hpy _ Hb). }
      intros Hclose. exfalso.
      rewrite Qabs_swap in Hclose.
      rewrite Qabs_pos in Hclose by lra. rewrite Qabs_pos in Hrange by lra. lra.
Qed.

(** All ordered pairs of emitted points are clear of each other. *)
Lemma sweep_apart r sorted : ∀ w out,
  ascending sorted →
  (∀ q e, q ∈ w → e ∈ sorted → (y q <= e.2)%Q) →
  sweep r w sorted = Some out →
  ForallOrdPairs (apart r) out.
Proof.
  induction sorted as [|[p py] rest IH]; intros w out Hasc Hbelow; simpl.
  - intros [= <-]. constructor.
  - sweep_step x Hx out' Hs.
    apply StronglySorted_inv in Hasc as [Hrest Hpy].
    assert (∀ q e, q ∈ filter (λ q, in_range r py q = true) w ++ [place p py x] →
                   e ∈ rest → (y q <= e.2)%Q) as Hbelow'.
    { intros q' e Hq' He. apply elem_of_app in Hq' as [Hq'|Hq'].
      - apply list_elem_of_filter in Hq' as [_ Hq']. apply Hbelow; [done | by right].
      - apply list_elem_of_singleton in Hq' as ->. simpl.
        by apply (proj1 (Forall_forall _ _) Hpy e). }
    constructor.
    + apply List.Forall_forall. intros b Hb. apply list_elem_of_In in Hb.
      apply (sweep_window _ _ _ _ Hrest Hbelow' Hs); [|done].
      apply elem_of_app. right. by apply list_elem_of_singleton.
    + by apply (IH _ _ Hrest Hbelow').
Qed.

Lemma ForallOrdPairs_lookup {A} (R : A → A → Prop) (l : list A) :
  ForallOrdPairs R l →
  ∀ i j a b, (i < j)%nat → l !! i = Some a → l !! j = Some b → R a b.
Proof.
  induction 1 as [|x l Hx Hl IH]; intros i j a b Hij Hi Hj.
  - by rewrite lookup_nil in Hi.
  - destruct j as [|j]; [lia|]. simpl in Hj. destruct i as [|i]; simpl in Hi.
    + injection Hi as <-. apply (proj1 (List.Forall_forall _ _) Hx).
      apply list_elem_of_In. by eapply list_elem_of_lookup_2.
    + apply (IH i j); [lia | done..].
Qed.




(** The sort is stable: points of one position keep their input order. *)
Lemma sort_by_y_ties c (l : list (Point T * Q)) :
  Forall (λ e, e.2 = c) l → sort_by_y l = l.
Proof.
  induction 1 as [|a l Ha Hl IH]; simpl; [done|]. rewrite IH.
  destruct Hl as [|h t Hh _]; simpl; [done|].
  assert (Qle_bool a.2 h.2 = true) as ->; [|done].
  apply Qle_bool_iff. rewrite Ha, Hh. apply Qle_refl.
Qed.

Lemma layout_runs (pts : list (Point T)) (f : Q → Q) (r : Q) :
  ∃ out, beeswarmLayout pts f r = Some out.
Proof.
  unfold beeswarmLayout.
  destruct (sweep_total r (sort_by_y (map (λ p, (p, f (value p))) pts)) [])
    as [out Hout]; [constructor | eauto].
Qed.

(** No two points of a layout overlap. *)
Lemma layout_apart (pts : list (Point T)) (f : Q → Q) (r : Q) out :
  beeswarmLayout pts f r = Some out →
  ∀ i j a b, i ≠ j → out !! i = Some a → out !! j = Some b → apart r a b.
Proof.
  unfold beeswarmLayout. intros Hout.
  assert (ForallOrdPairs (apart r) out) as Hpairs.
  { eapply sweep_apart; [apply sort_by_y_ascending| |exact Hout].
    intros q e Hq. inversion Hq. }
  intros i j a b Hij Hi Hj.
  destruct (Nat.lt_total i j) as [Hlt|[->|Hgt]]; [|done|].
  - by apply (ForallOrdPairs_lookup _ _ Hpairs i j).
  - apply apart_sym. by apply (ForallOrdPairs_lookup _ _ Hpairs j i).
Qed.

End LayoutFacts.

(** The circles drawn for one round, of radius 4, never overlap. *)
Lemma beeswarmData_apart (yScale : Q → Q) (data : list Competitiveness.Pair) :
  ∃ out, Plot.beeswarmData yScale data = Some out
  ∧ ∀ i j a b, i ≠ j → out !! i = Some a → out !! j = Some b →
      LayoutSpec.apart 4 a b.
Proof.
  unfold Plot.beeswarmData.
  destruct (layout_runs
              (map (λ d, {| Layout.value := default 0%Q (rankDiff (Competitiveness.p_derived d));
                            Layout.payload := d |}) data)
              (λ val, yScale val) 4) as [out Hout].
  exists out. split; [done|]. by eapply layout_apart.
Qed.

(** * Points that share one value *)

Section LayoutSameValue.

Import Layout LayoutSpec.

Context {T : Type}.





End LayoutSameValue.

(** ** The claims about the beeswarm layout *)

Section LayoutClaims.

Import Layout LayoutSpec Demo.


(** Points are emitted by ascending position; nearby points share slots
    only when their positions are a full diameter apart. *)
Example mixed_layout :
  fmap (M:=list) (λ b : BeeswarmPoint string, (b_payload b, x_offset b)) <$>
    beeswarmLayout
      [ {| value := 5; payload := "a" |}; {| value := 1; payload := "b" |};
        {| value := 14; payload := "c" |}; {| value := 12; payload := "d" |};
        {| value := 5; payload := "e" |} ]
      (λ v, v) 4
  = Some [ ("b", 0%Q); ("a", 8%Q); ("e", (-8)%Q); ("d", 0%Q); ("c", 8%Q) ].
Proof. vm_compute. reflexivity. Qed.

(** C1: the layout always returns, and no two circles of radius [r] of its
    output overlap: two different output points whose positions are closer
    than [2r] have offsets at least [2r] apart. *)
Theorem C1_no_two_circles_overlap
    {T} (pts : list (Point T)) (f : Q → Q) (r : Q) :
  ∃ out, beeswarmLayout pts f r = Some out
  ∧ ∀ i j a b, i ≠ j → out !! i = Some a → out !! j = Some b →
      (Qabs (y a - y b) < 2 * r)%Q →
      (2 * r <= Qabs (x_offset a - x_offset b))%Q.
Proof.
  destruct (layout_runs pts f r) as [out Hout]. exists out. split; [done|].
  intros i j a b Hij Hi Hj. by apply (layout_apart pts f r out Hout i j).
Qed.

(** C4: the layout always returns; its output has as many entries as the
    input, the value and payload of the output entries are a rearrangement
    of the input points, and every entry sits at the mapped position of its
    value. *)
Theorem C4_one_entry_per_input
    {T} (pts : list (Point T)) (f : Q → Q) (r : Q) :
  ∃ out, beeswarmLayout pts f r = Some out
  ∧ length out = length pts
  ∧ source <$> out ≡ₚ pts
  ∧ Forall (λ b, y b = f (b_value b)) out.
Proof.
  destruct (layout_runs pts f r) as [out Hout]. exists out. split; [done|].
  unfold beeswarmLayout in Hout.
  pose proof (sweep_sources _ _ _ _ Hout) as Hsrc.
  assert (source <$> out ≡ₚ pts) as Hperm.
  { assert (source <$> out = fst <$> ((λ b, (source b, y b)) <$> out)) as ->
      by (by rewrite <- list_fmap_compose).
    rewrite Hsrc, sort_by_y_perm.
    change (map (λ p, (p, f (value p))) pts) with ((λ p, (p, f (value p))) <$> pts).
    rewrite <- list_fmap_compose. by rewrite list_fmap_id. }
  split; [|split; [done|]].
  - rewrite <- (length_fmap source out). by apply Permutation_length.
  - apply Forall_forall. intros b Hb.
    apply (sweep_elem _ _ _ _ _ Hout) in Hb.
    rewrite sort_by_y_perm in Hb.
    apply (list_elem_of_fmap (λ p, (p, f (value p)))) in Hb as (p & [= <- ->] & _).
    done.
Qed.



End LayoutClaims.

(** * Further properties of the player surface profile *)

Section SurfaceProfileCounts.

Import SurfaceProfile ProfileSpec ProfileChartSpec Demo.

Lemma first_seen_NoDup l : NoDup (first_seen l).
Proof.
  induction l as [|s l IH]; simpl; constructor.
  - rewrite list_elem_of_filter. by intros [Hne _].
  - by apply NoDup_filter.
Qed.

Lemma surfaceStats_keys tm playerId pm :
  (surfaceStats tm playerId pm).*1 = first_seen (omap (surface_of tm) pm).
Proof.
  unfold surfaceStats. rewrite foldl_step_keys. simpl.
  apply filter_all. intros k _ Hk. inversion Hk.
Qed.

Lemma total_on_app s (st1 st2 : StatsMap) :
  total_on s (st1 ++ st2) = total_on s st1 + total_on s st2.
Proof.
  induction st1 as [|e st1 IH]; simpl; [done|]. rewrite IH. case_bool_decide; lia.
Qed.

Lemma wins_on_app s (st1 st2 : StatsMap) :
  wins_on s (st1 ++ st2) = wins_on s st1 + wins_on s st2.
Proof.
  induction st1 as [|e st1 IH]; simpl; [done|]. rewrite IH. case_bool_decide; lia.
Qed.

Lemma update_other s s' f (st : StatsMap) :
  s ≠ s' →
  total_on s' (update s f st) = total_on s' st
  ∧ wins_on s' (update s f st) = wins_on s' st.
Proof.
  intros Hne. induction st as [|[k v] st [IHt IHw]]; simpl; [done|].
  destruct (decide (k = s)) as [->|Hk].
  - rewrite bool_decide_eq_true_2 by done. simpl.
    by rewrite !bool_decide_eq_false_2 by done.
  - rewrite (bool_decide_eq_false_2 (k = s)) by done. simpl.
    rewrite IHt, IHw. done.
Qed.

Lemma update_same s won (st : StatsMap) :
  s ∈ st.*1 →
  total_on s (update s (bump won) st) = total_on s st + 1
  ∧ wins_on s (update s (bump won) st) = wins_on s st + (if won then 1 else 0).
Proof.
  induction st as [|[k v] st IH]; simpl.
  - intros H; inversion H.
  - rewrite elem_of_cons. intros Hin.
    destruct (decide (k = s)) as [->|Hk].
    + rewrite !bool_decide_eq_true_2 by done. simpl.
      rewrite !bool_decide_eq_true_2 by done. destruct won; lia.
    + rewrite !(bool_decide_eq_false_2 (k = s)) by done. simpl.
      rewrite !(bool_decide_eq_false_2 (k = s)) by done.
      destruct IH as [IHt IHw]; [destruct Hin; [congruence | done]|].
      rewrite IHt, IHw. lia.
Qed.

(** One iteration adds the match to the counters of its surface only. *)
Lemma step_counters tm playerId st m t s :
  tm !! tournamentId m = Some t →
  total_on s (step tm playerId st m)
    = total_on s st + (if bool_decide (surface t = s) then 1 else 0)
  ∧ wins_on s (step tm playerId st m)
    = wins_on s st
      + (if bool_decide (surface t = s ∧ winnerId m = playerId) then 1 else 0).
Proof.
  unfold step. intros ->.
  set (st1 := if has (surface t) st then st
              else set_new (surface t) {| wins := 0; total := 0 |} st).
  assert (surface t ∈ st1.*1 ∧ total_on s st1 = total_on s st
          ∧ wins_on s st1 = wins_on s st) as (Hin & Ht & Hw).
  { unfold st1. destruct (has (surface t) st) eqn:Hhas.
    - by apply has_true in Hhas.
    - unfold set_new. rewrite fmap_app, total_on_app, wins_on_app. simpl.
      split; [set_solver|]. case_bool_decide; lia. }
  destruct (decide (surface t = s)) as [<-|Hne].
  - destruct (update_same (surface t) (bool_decide (winnerId m = playerId)) st1 Hin)
      as [-> ->].
    rewrite Ht, Hw, bool_decide_eq_true_2 by done. split; [done|].
    f_equal. repeat case_bool_decide; tauto.
  - destruct (update_other (surface t) s
                (bump (bool_decide (winnerId m = playerId))) st1 Hne) as [-> ->].
    rewrite Ht, Hw, !bool_decide_eq_false_2 by tauto. lia.
Qed.

Lemma foldl_step_counters tm playerId s pm : ∀ st,
  total_on s (foldl (step tm playerId) st pm)
    = total_on s st
      + Z.of_nat (length (filter (λ m, surface_of tm m = Some s) pm))
  ∧ wins_on s (foldl (step tm playerId) st pm)
    = wins_on s st
      + Z.of_nat (length (filter (λ m, surface_of tm m = Some s
                                       ∧ winnerId m = playerId) pm)).
Proof.
  induction pm as [|m pm IH]; intros st; simpl; [lia|].
  destruct (IH (step tm playerId st m)) as [-> ->].
  destruct (tm !! tournamentId m) as [t|] eqn:Ht.
  - assert (surface_of tm m = Some (surface t)) as Hs
      by (unfold surface_of; by rewrite Ht).
    destruct (step_counters tm playerId st m t s Ht) as [-> ->].
    destruct (decide (surface t = s)) as [Hts|Hts].
    + rewrite (filter_cons_True (λ m, surface_of tm m = Some s)) by congruence.
      rewrite (bool_decide_eq_true_2 (surface t = s)) by done.
      destruct (decide (winnerId m = playerId)) as [Hw|Hw].
      * rewrite filter_cons_True by (split; congruence).
        rewrite bool_decide_eq_true_2 by done. simpl. lia.
      * rewrite filter_cons_False by tauto.
        rewrite bool_decide_eq_false_2 by tauto. simpl. lia.
    + rewrite (filter_cons_False (λ m, surface_of tm m = Some s))
      by (rewrite Hs; congruence).
    rewrite (filter_cons_False (λ m, surface_of tm m = Some s ∧ winnerId m = playerId))
      by (rewrite Hs; intros [? _]; congruence).
      rewrite !bool_decide_eq_false_2 by tauto. lia.
  - assert (surface_of tm m = None) as Hs by (unfold surface_of; by rewrite Ht).
    rewrite (step_unresolved _ _ _ _ Ht).
    rewrite (filter_cons_False (λ m, surface_of tm m = Some s))
      by (rewrite Hs; congruence).
    rewrite (filter_cons_False (λ m, surface_of tm m = Some s ∧ winnerId m = playerId))
      by (rewrite Hs; intros [? _]; congruence). done.
Qed.

Lemma counters_unique (st : StatsMap) k v :
  NoDup st.*1 → (k, v) ∈ st → total_on k st = total v ∧ wins_on k st = wins v.
Proof.
  induction st as [|[k' v'] st IH]; simpl; intros Hnd Hin; [inversion Hin|].
  apply NoDup_cons in Hnd as [Hk' Hnd].
  assert (∀ s, s ∉ st.*1 → total_on s st = 0 ∧ wins_on s st = 0) as Hzero.
  { clear. intros s. induction st as [|[k0 v0] st IH]; simpl; [done|].
    rewrite not_elem_of_cons. intros [Hne Hs].
    rewrite !bool_decide_eq_false_2 by done. by apply IH. }
  apply elem_of_cons in Hin as [[= -> ->]|Hin].
  - rewrite !bool_decide_eq_true_2 by done.
    destruct (Hzero k' Hk') as [-> ->]. lia.
  - assert (k' ≠ k) as Hne.
    { intros ->. apply Hk'. by apply (list_elem_of_fmap_2 fst st (k, v)). }
    rewrite !bool_decide_eq_false_2 by done. by apply IH.
Qed.

(** The counters of an entry of the loop's result, read off the match
    list. *)
Lemma surfaceStats_counts matches tm playerId k v :
  (k, v) ∈ surfaceStats tm playerId (playerMatches matches playerId) →
  total v = Z.of_nat (length (playedOn tm playerId k matches))
  ∧ wins v = Z.of_nat (length (wonOn tm playerId k matches)).
Proof.
  intros Hin.
  assert (NoDup (surfaceStats tm playerId (playerMatches matches playerId)).*1) as Hnd
    by (rewrite surfaceStats_keys; apply first_seen_NoDup).
  destruct (counters_unique _ _ _ Hnd Hin) as [<- <-].
  unfold surfaceStats.
  destruct (foldl_step_counters tm playerId k (playerMatches matches playerId) [])
    as [-> ->].
  unfold wonOn, playedOn, playerMatches, contributes, surface_of. simpl.
  rewrite !list_filter_filter, !Z.add_0_l.
  split; do 2 f_equal; apply list_filter_iff; intros m.
  - destruct (tm !! tournamentId m); simpl.
    + split; [intros (? & ?) | intros ((? & ?) & ?)]; eauto.
    + split; [intros ([=] & _) | intros (_ & [=])].
  - destruct (tm !! tournamentId m); simpl.
    + split; [intros ((? & ?) & ?) | intros (? & (? & ?) & ?)]; eauto.
    + split; [intros (([=] & _) & _) | intros (_ & _ & [=])].
Qed.

End SurfaceProfileCounts.

Section SurfaceProfileExtras.

Import SurfaceProfile ProfileSpec ProfileChartSpec ProfileChart Demo Demo2.

(** X1: each entry of the profile counts exactly the matches of the player
    on its surface whose tournament resolves, and the wins among them. *)
Theorem profile_counts_per_surface
    (matches : list Match) (tm : gmap string Tournament) (playerId : string)
    (s : SurfaceStat) :
  s ∈ computeSurfaceProfile matches tm playerId →
  s_total s = Z.of_nat (length (playedOn tm playerId (s_surface s) matches))
  ∧ s_wins s = Z.of_nat (length (wonOn tm playerId (s_surface s) matches)).
Proof.
  intros Hin. apply profile_entry in Hin as ([k v] & _ & -> & He).
  simpl. by apply surfaceStats_counts.
Qed.

(** The statement above, on the sample data. *)
Lemma profile_counts_per_surface_witness :
  s_total demo_stat
    = Z.of_nat (length (playedOn (tournamentsMap demo_tournaments) "P1"
                          (s_surface demo_stat)
                          [ mk_match "m1" "t-hard" "P1" "P2" R1;
                            mk_match "m2" "t-hard" "P1" "P3" R2;
                            mk_match "m3" "t-hard" "P2" "P1" QF ]))
  ∧ s_wins demo_stat
    = Z.of_nat (length (wonOn (tournamentsMap demo_tournaments) "P1"
                          (s_surface demo_stat)
                          [ mk_match "m1" "t-hard" "P1" "P2" R1;
                            mk_match "m2" "t-hard" "P1" "P3" R2;
                            mk_match "m3" "t-hard" "P2" "P1" QF ])).
Proof.
  apply (profile_counts_per_surface _ (tournamentsMap demo_tournaments) "P1" demo_stat).
  vm_compute. left.
Defined.

Lemma profile_surfaces matches tm playerId :
  s_surface <$> computeSurfaceProfile matches tm playerId
  = (surfaceStats tm playerId (playerMatches matches playerId)).*1.
Proof.
  unfold computeSurfaceProfile.
  change (map to_stat) with (fmap (M:=list) to_stat).
  by rewrite <- list_fmap_compose.
Qed.

Lemma profile_surface_elem matches tm playerId k :
  k ∈ s_surface <$> computeSurfaceProfile matches tm playerId
  ↔ playedOn tm playerId k matches ≠ [].
Proof.
  rewrite profile_surfaces, surfaceStats_keys, first_seen_elem, list_elem_of_omap.
  unfold playedOn, playerMatches, contributes, surface_of. split.
  - intros (m & Hm & Hs) Hnil. apply list_elem_of_filter in Hm as [Hinv Hm].
    assert (m ∈ @nil Match) as Hbad; [|inversion Hbad].
    rewrite <- Hnil. apply list_elem_of_filter. split; [|done].
    split; [|done]. split; [done|]. destruct (tm !! tournamentId m); [eauto|done].
  - intros Hne.
    destruct (filter _ matches) as [|m l] eqn:Hf; [done|].
    assert (m ∈ m :: l) as Hm by left. rewrite <- Hf in Hm.
    apply list_elem_of_filter in Hm as [[[Hinv _] Hs] Hm].
    exists m. split; [by apply list_elem_of_filter | done].
Qed.

(** X2: the profile has at most one entry per surface, hence at most four;
    a surface has an entry exactly when the player has a match on it whose
    tournament resolves. *)
Theorem profile_one_entry_per_surface
    (matches : list Match) (tm : gmap string Tournament) (playerId : string) :
  NoDup (s_surface <$> computeSurfaceProfile matches tm playerId)
  ∧ (length (computeSurfaceProfile matches tm playerId) ≤ 4)%nat
  ∧ ∀ k, k ∈ s_surface <$> computeSurfaceProfile matches tm playerId
         ↔ playedOn tm playerId k matches ≠ [].
Proof.
  assert (NoDup (s_surface <$> computeSurfaceProfile matches tm playerId)) as Hnd.
  { rewrite profile_surfaces, surfaceStats_keys. apply first_seen_NoDup. }
  split; [done|]. split; [|apply profile_surface_elem].
  rewrite <- (length_fmap s_surface).
  change 4%nat with (length surfaces).
  apply submseteq_length, NoDup_submseteq; [done|].
  intros k _. unfold surfaces. destruct k; set_solver.
Qed.

Lemma to_stat_inj_counts e e' :
  e.1 = e'.1 → total e.2 = total e'.2 → wins e.2 = wins e'.2 →
  to_stat e = to_stat e'.
Proof.
  destruct e as [k [w t]], e' as [k' [w' t']]. simpl. by intros -> -> ->.
Qed.

Lemma profile_perm_incl matches matches' tm playerId s :
  matches ≡ₚ matches' →
  s ∈ computeSurfaceProfile matches tm playerId →
  s ∈ computeSurfaceProfile matches' tm playerId.
Proof.
  intros Hperm Hin.
  assert (∀ k, playedOn tm playerId k matches ≡ₚ playedOn tm playerId k matches')
    as Hplayed by (intros k; unfold playedOn; by rewrite Hperm).
  assert (s_surface s ∈ s_surface <$> computeSurfaceProfile matches' tm playerId) as Hk.
  { apply profile_surface_elem. intros Hnil.
    assert (s_surface s ∈ s_surface <$> computeSurfaceProfile matches tm playerId) as Hs
      by (by apply list_elem_of_fmap_2).
    apply profile_surface_elem in Hs. apply Hs.
    apply Permutation_nil_r. rewrite <- Hnil. apply Hplayed. }
  apply list_elem_of_fmap in Hk as (s' & Hsurf & Hin').
  replace s with s'; [done|].
  apply profile_entry in Hin as ([k v] & _ & -> & He).
  apply profile_entry in Hin' as ([k' v'] & _ & -> & He').
  simpl in Hsurf. subst k'.
  apply surfaceStats_counts in He as [Ht Hw].
  apply surfaceStats_counts in He' as [Ht' Hw'].
  apply to_stat_inj_counts; simpl; [done | |].
  - rewrite Ht, Ht'. f_equal. apply Permutation_length. symmetry. apply Hplayed.
  - rewrite Hw, Hw'. f_equal. apply Permutation_length. unfold wonOn.
    by rewrite (Hplayed k).
Qed.

(** X3: reordering the match list leaves the entries of the profile
    unchanged; only their order can differ. *)
Theorem profile_order_independent
    (matches matches' : list Match) (tm : gmap string Tournament)
    (playerId : string) :
  matches ≡ₚ matches' →
  computeSurfaceProfile matches tm playerId
    ≡ₚ computeSurfaceProfile matches' tm playerId.
Proof.
  intros Hperm.
  assert (∀ ms, NoDup (computeSurfaceProfile ms tm playerId)) as Hnd.
  { intros ms. apply (NoDup_fmap_1 s_surface).
    rewrite profile_surfaces, surfaceStats_keys. apply first_seen_NoDup. }
  apply NoDup_Permutation; [apply Hnd..|].
  intros s. split; apply profile_perm_incl; [done | by symmetry].
Qed.

(** The statement above, on the sample data. *)
Lemma profile_order_independent_witness :
  computeSurfaceProfile
    [ mk_match "m1" "t-clay" "P1" "P2" R1; mk_match "m3" "t-hard" "P2" "P1" R2 ]
    (tournamentsMap demo_tournaments) "P1"
  ≡ₚ computeSurfaceProfile
    [ mk_match "m3" "t-hard" "P2" "P1" R2; mk_match "m1" "t-clay" "P1" "P2" R1 ]
    (tournamentsMap demo_tournaments) "P1".
Proof.
  apply profile_order_independent. apply perm_swap.
Defined.

End SurfaceProfileExtras.

(** * Pinned players and bars of the surface profile chart *)

Section ProfileChartFacts.

Import SurfaceProfile ProfileSpec ProfileChartSpec ProfileChart Demo Demo2.

Lemma find_player_Some players playerId player :
  find_player players playerId = Some player →
  player ∈ players ∧ pl_id player = playerId.
Proof.
  unfold find_player. intros H. apply find_some in H as [Hin Hid].
  split; [by apply list_elem_of_In | by apply bool_decide_eq_true in Hid].
Qed.

Lemma find_player_None players playerId :
  find_player players playerId = None ↔ playerId ∉ pl_id <$> players.
Proof.
  unfold find_player. split.
  - intros H Hin. apply list_elem_of_fmap in Hin as (p & -> & Hp).
    apply list_elem_of_In in Hp.
    pose proof (find_none _ _ H p Hp) as Hf. by apply bool_decide_eq_false in Hf.
  - intros Hnin. destruct (List.find _ players) as [p|] eqn:Hf; [|done].
    apply find_some in Hf as [Hin Hid]. apply bool_decide_eq_true in Hid.
    exfalso. apply Hnin. rewrite <- Hid.
    by apply list_elem_of_fmap_2, list_elem_of_In.
Qed.

Lemma playerStats_spec
    (matches : list Match) (tournaments : list Tournament)
    (players : list Player) (playerIds : list string) :
  ps_playerId <$> playerStats matches tournaments players playerIds
    = filter (λ playerId, playerId ∈ pl_id <$> players) playerIds
  ∧ ∀ ps, ps ∈ playerStats matches tournaments players playerIds →
      ps_surfaceStats ps
        = computeSurfaceProfile matches (tournamentsMap tournaments) (ps_playerId ps)
      ∧ ∃ player, find_player players (ps_playerId ps) = Some player
                  ∧ ps_playerName ps = pl_name player.
Proof.
  unfold playerStats. split.
  - induction playerIds as [|pid ids IH]; [done|]. simpl.
    destruct (find_player players pid) as [p|] eqn:Hf.
    + rewrite filter_cons_True.
      * simpl. f_equal. exact IH.
      * destruct (decide (pid ∈ pl_id <$> players)) as [|Hnin]; [done|].
        apply find_player_None in Hnin. congruence.
    + rewrite filter_cons_False; [exact IH|]. intros Hin.
      by apply find_player_None in Hf.
  - intros ps Hps. apply list_elem_of_omap in Hps as (pid & _ & Hps).
    destruct (find_player players pid) as [p|] eqn:Hf; [|done].
    injection Hps as <-. simpl. eauto.
Qed.

(** X4: the chart has one group of bars per pinned id that belongs to a
    known player, in the order the ids are pinned; ids of unknown players
    are skipped.  Each group carries the name of the first player with that
    id and the surface profile of that id. *)
Theorem playerStats_known_pinned_players
    (matches : list Match) (tournaments : list Tournament)
    (players : list Player) (playerIds : list string) :
  ps_playerId <$> playerStats matches tournaments players playerIds
    = filter (λ playerId, playerId ∈ pl_id <$> players) playerIds
  ∧ ∀ ps, ps ∈ playerStats matches tournaments players playerIds →
      ps_surfaceStats ps
        = computeSurfaceProfile matches (tournamentsMap tournaments) (ps_playerId ps)
      ∧ ∃ player, find_player players (ps_playerId ps) = Some player
                  ∧ ps_playerName ps = pl_name player.
Proof. apply playerStats_spec. Qed.

Lemma or_zero_Some v : (or_zero (Some v) == v)%Q.
Proof.
  unfold or_zero. destruct (Qeq_bool v 0) eqn:Hz; [|done].
  apply Qeq_bool_iff in Hz. by rewrite Hz.
Qed.

Lemma stat_for_Some ps s st :
  stat_for ps s = Some st → st ∈ ps_surfaceStats ps ∧ s_surface st = s.
Proof.
  unfold stat_for. intros H. apply find_some in H as [Hin Hs].
  split; [by apply list_elem_of_In | by apply bool_decide_eq_true in Hs].
Qed.

Lemma stat_for_None ps s :
  stat_for ps s = None → s ∉ s_surface <$> ps_surfaceStats ps.
Proof.
  unfold stat_for. intros H Hin. apply list_elem_of_fmap in Hin as (st & -> & Hst).
  apply list_elem_of_In in Hst.
  pose proof (find_none _ _ H st Hst) as Hf. by apply bool_decide_eq_false in Hf.
Qed.

Lemma bar_winRate_spec
    (matches : list Match) (tournaments : list Tournament)
    (players : list Player) (playerIds : list string)
    (ps : PlayerStat) (s : Surface) :
  ps ∈ playerStats matches tournaments players playerIds →
  let played := playedOn (tournamentsMap tournaments) (ps_playerId ps) s matches in
  let won := wonOn (tournamentsMap tournaments) (ps_playerId ps) s matches in
  (has_label ps s = true ↔ played ≠ [])
  ∧ (played = [] → bar_winRate ps s == 0)%Q
  ∧ (played ≠ [] →
     bar_winRate ps s
       == inject_Z (Z.of_nat (length won)) / inject_Z (Z.of_nat (length played)))%Q
  ∧ (0 <= bar_winRate ps s <= 1)%Q.
Proof.
  intros Hps played won.
  apply playerStats_spec in Hps as [Hprof _].
  unfold has_label, bar_winRate.
  destruct (stat_for ps s) as [st|] eqn:Hst.
  - apply stat_for_Some in Hst as [Hin <-]. rewrite Hprof in Hin.
    assert (played ≠ []) as Hne.
    { apply profile_surface_elem. by apply list_elem_of_fmap_2. }
    pose proof (profile_entry _ _ _ _ Hin) as ([k v] & (H0 & H1 & H2) & -> & He).
    destruct (surfaceStats_counts _ _ _ _ _ He) as [Ht Hw].
    subst played won. change (s_surface (to_stat (k, v))) with k in *.
    simpl in H0, H1, H2.
    assert ((0 <? total v) = true) as Hpos by (apply Z.ltb_lt; lia).
    assert (or_zero (winRate <$> Some (to_stat (k, v)))
            == inject_Z (wins v) / inject_Z (total v))%Q as Hbar.
    { change (winRate <$> Some (to_stat (k, v))) with (Some (winRate (to_stat (k, v)))).
      rewrite or_zero_Some. unfold to_stat. simpl. by rewrite Hpos. }
    split; [simpl; by rewrite Hpos|]. split; [done|].
    rewrite Hbar, <- Ht, <- Hw.
    split; [done|]. by apply ratio_bounds.
  - simpl. apply stat_for_None in Hst. rewrite Hprof in Hst.
    assert (played = []) as Hnil.
    { destruct (decide (played = [])) as [|Hne]; [done|].
      by apply profile_surface_elem in Hne. }
    split; [split; [done | by intros ?]|]. split; [done|].
    split; [by intros ? | done].
Qed.

(** X5: what a bar shows.  For a group of bars of the chart and a surface:
    the percentage label is drawn exactly when the player has a match on the
    surface whose tournament resolves; the bar's win rate is then the wins
    among these matches divided by their number, and 0 when there is none.
    It is always between 0 and 1. *)
Theorem bar_shows_surface_win_rate
    (matches : list Match) (tournaments : list Tournament)
    (players : list Player) (playerIds : list string)
    (ps : PlayerStat) (s : Surface) :
  ps ∈ playerStats matches tournaments players playerIds →
  let played := playedOn (tournamentsMap tournaments) (ps_playerId ps) s matches in
  let won := wonOn (tournamentsMap tournaments) (ps_playerId ps) s matches in
  (has_label ps s = true ↔ played ≠ [])
  ∧ (played = [] → bar_winRate ps s == 0)%Q
  ∧ (played ≠ [] →
     bar_winRate ps s
       == inject_Z (Z.of_nat (length won)) / inject_Z (Z.of_nat (length played)))%Q
  ∧ (0 <= bar_winRate ps s <= 1)%Q.
Proof. apply bar_winRate_spec. Qed.

(** The statement above, on the sample data. *)
Lemma bar_shows_surface_win_rate_witness :
  let ps := {| ps_playerId := "P1"; ps_playerName := "Ada";
               ps_surfaceStats :=
                 computeSurfaceProfile demo_matches
                   (tournamentsMap demo_tournaments) "P1" |} in
  let played := playedOn (tournamentsMap demo_tournaments) (ps_playerId ps) Clay
                  demo_matches in
  let won := wonOn (tournamentsMap demo_tournaments) (ps_playerId ps) Clay
               demo_matches in
  (has_label ps Clay = true ↔ played ≠ [])
  ∧ (played = [] → bar_winRate ps Clay == 0)%Q
  ∧ (played ≠ [] →
     bar_winRate ps Clay
       == inject_Z (Z.of_nat (length won)) / inject_Z (Z.of_nat (length played)))%Q
  ∧ (0 <= bar_winRate ps Clay <= 1)%Q.
Proof.
  apply (bar_shows_surface_win_rate demo_matches demo_tournaments demo_players
           ["P9"; "P1"]).
  vm_compute. left.
Defined.

(** X6: the bars of one surface stand side by side inside the band of the
    surface: the first starts at or after the band start, each ends before
    the next one starts, and the last ends within the band. *)
Theorem bars_side_by_side_in_band
    (xScale : Surface → option Q) (bandwidth : Q) (yScale : Q → Q)
    (n i j : nat) (pi pj : PlayerStat) (s : Surface) (b : Q) :
  (0 <= bandwidth)%Q →
  xScale s = Some b →
  (i ≤ j)%nat → (j < n)%nat →
  let bi := bar xScale bandwidth yScale n pi i s in
  let bj := bar xScale bandwidth yScale n pj j s in
  (b <= r_x bi)%Q
  ∧ (r_x bj + r_width bj <= b + bandwidth)%Q
  ∧ ((i < j)%nat → (r_x bi + r_width bi <= r_x bj)%Q).
Proof.
  intros Hbw Hb Hij Hjn. simpl. rewrite Hb.
  pose proof (or_zero_Some b) as Hb0. revert Hb0.
  generalize (or_zero (Some b)). intros b0 Hb0.
  assert (0 < inject_Z (Z.of_nat n))%Q as Hn.
  { change 0%Q with (inject_Z 0). rewrite <- Zlt_Qlt. lia. }
  assert (inject_Z (Z.of_nat n) * groupWidth bandwidth n == bandwidth)%Q as Hfull.
  { unfold groupWidth. apply Qmult_div_r. lra. }
  assert (0 <= groupWidth bandwidth n)%Q as Hg.
  { unfold groupWidth. apply Qle_shift_div_l; [done | lra]. }
  revert Hfull Hg. generalize (groupWidth bandwidth n). intros g Hfull Hg.
  assert (0 <= inject_Z (Z.of_nat i))%Q as Hi0.
  { change 0%Q with (inject_Z 0). rewrite <- Zle_Qle. lia. }
  assert (inject_Z (Z.of_nat i) <= inject_Z (Z.of_nat j))%Q as Hij'.
  { rewrite <- Zle_Qle. lia. }
  assert (inject_Z (Z.of_nat j) + 1 <= inject_Z (Z.of_nat n))%Q as Hjn'.
  { change 1%Q with (inject_Z 1). rewrite <- inject_Z_plus, <- Zle_Qle. lia. }
  assert ((i < j)%nat → inject_Z (Z.of_nat i) + 1 <= inject_Z (Z.of_nat j))%Q as Hlt.
  { intros H. change 1%Q with (inject_Z 1).
    rewrite <- inject_Z_plus, <- Zle_Qle. lia. }
  revert Hfull Hi0 Hij' Hjn' Hlt. clear Hn.
  generalize (inject_Z (Z.of_nat n)), (inject_Z (Z.of_nat j)), (inject_Z (Z.of_nat i)).
  intros N J I Hfull Hi0 Hij' Hjn' Hlt.
  assert (0 <= I * g)%Q as H1 by (by apply Qmult_le_0_compat).
  assert (0 <= (N - J - 1) * g)%Q as H2 by (apply Qmult_le_0_compat; lra).
  split; [lra|]. split; [lra|].
  intros H. specialize (Hlt H).
  assert (0 <= (J - I - 1) * g)%Q as H3 by (apply Qmult_le_0_compat; lra).
  lra.
Qed.

(** The statement above, on the sample data. *)
Lemma bars_side_by_side_in_band_witness :
  let bi := bar demo_xScale demo_bandwidth demo_yScale 2
              {| ps_playerId := "P1"; ps_playerName := "Ada"; ps_surfaceStats := [] |}
              0 Hard in
  let bj := bar demo_xScale demo_bandwidth demo_yScale 2
              {| ps_playerId := "P2"; ps_playerName := "Bo"; ps_surfaceStats := [] |}
              1 Hard in
  ((620 # 21) <= r_x bi)%Q
  ∧ (r_x bj + r_width bj <= (620 # 21) + demo_bandwidth)%Q
  ∧ ((0 < 1)%nat → (r_x bi + r_width bi <= r_x bj)%Q).
Proof.
  apply (bars_side_by_side_in_band demo_xScale demo_bandwidth demo_yScale 2 0 1).
  - vm_compute. discriminate.
  - reflexivity.
  - lia.
  - lia.
Defined.

(** X7: with a linear scale that decreases from [height] at 0 to 0 at 1,
    every bar of the chart lies within the plot area: its top is between 0
    and [height], its height too, and it stands on the axis. *)
Theorem bars_within_plot_height
    (xScale : Surface → option Q) (bandwidth : Q) (yScale : Q → Q)
    (matches : list Match) (tournaments : list Tournament)
    (players : list Player) (playerIds : list string)
    (n i : nat) (ps : PlayerStat) (s : Surface) :
  (∀ v w, v <= w → yScale w <= yScale v)%Q →
  (yScale 0 == height)%Q →
  (yScale 1 == 0)%Q →
  ps ∈ playerStats matches tournaments players playerIds →
  let b := bar xScale bandwidth yScale n ps i s in
  (0 <= r_y b <= height)%Q
  ∧ (0 <= r_height b <= height)%Q
  ∧ (r_y b + r_height b == height)%Q.
Proof.
  intros Hmono H0 H1 Hps. simpl.
  destruct (bar_winRate_spec matches tournaments players playerIds ps s Hps)
    as (_ & _ & _ & Hlo & Hhi).
  pose proof (Hmono _ _ Hlo) as Htop. pose proof (Hmono _ _ Hhi) as Hbot.
  rewrite H0 in Htop. rewrite H1 in Hbot.
  repeat split; lra.
Qed.

(** The statement above, on the sample data. *)
Lemma bars_within_plot_height_witness :
  let b := bar demo_xScale demo_bandwidth demo_yScale 1
             {| ps_playerId := "P1"; ps_playerName := "Ada";
                ps_surfaceStats :=
                  computeSurfaceProfile demo_matches
                    (tournamentsMap demo_tournaments) "P1" |}
             0 Clay in
  (0 <= r_y b <= height)%Q
  ∧ (0 <= r_height b <= height)%Q
  ∧ (r_y b + r_height b == height)%Q.
Proof.
  apply (bars_within_plot_height demo_xScale demo_bandwidth demo_yScale
           demo_matches demo_tournaments demo_players ["P1"]).
  - intros v w Hvw. unfold demo_yScale, height. nra.
  - reflexivity.
  - reflexivity.
  - vm_compute. left.
Defined.

End ProfileChartFacts.

(** * Further properties of the competitiveness chart *)

Section ChartFacts.

Import Competitiveness GroupSpec ChartSpec ChartPlot Demo.

Lemma truthy_Some s : truthy (Some s) = true ↔ s ≠ "".
Proof.
  simpl. rewrite negb_true_iff. split.
  - intros H ->. by rewrite String.eqb_refl in H.
  - intros H. by apply String.eqb_neq.
Qed.

Lemma on_surface_true tm s m :
  on_surface tm s m = true ↔ ∃ t, tm !! tournamentId m = Some t ∧ surface t = s.
Proof.
  unfold on_surface. destruct (tm !! tournamentId m) as [t|].
  - rewrite bool_decide_eq_true. split; [eauto | by intros (? & [= <-] & ?)].
  - split; [done | by intros (? & [=] & _)].
Qed.

Lemma in_series_true tm s m :
  in_series tm s m = true ↔ ∃ t, tm !! tournamentId m = Some t ∧ series t = s.
Proof.
  unfold in_series. destruct (tm !! tournamentId m) as [t|].
  - rewrite bool_decide_eq_true. split; [eauto | by intros (? & [= <-] & ?)].
  - split; [done | by intros (? & [=] & _)].
Qed.

Lemma filteredMatches_spec matches tm selSurface selSeries rounds :
  filteredMatches matches tm selSurface selSeries rounds `sublist_of` matches
  ∧ ∀ m, m ∈ filteredMatches matches tm selSurface selSeries rounds
         ↔ m ∈ matches ∧ passes tm selSurface selSeries rounds m.
Proof.
  unfold filteredMatches, passes.
  set (fm1 := match selSurface with
              | Some s => filter (λ m, on_surface tm s m = true) matches
              | None => matches
              end).
  set (fm2 := match selSeries with
              | Some s => if truthy selSeries
                          then filter (λ m, in_series tm s m = true) fm1 else fm1
              | None => fm1
              end).
  assert (fm1 `sublist_of` matches
          ∧ ∀ m, m ∈ fm1 ↔ m ∈ matches
                 ∧ ∀ s, selSurface = Some s →
                        ∃ t, tm !! tournamentId m = Some t ∧ surface t = s)
    as [Hsub1 H1].
  { unfold fm1. destruct selSurface as [s0|].
    - split; [apply sublist_filter|]. intros m.
      rewrite list_elem_of_filter, on_surface_true. split.
      + intros [Ht Hm]. split; [done|]. by intros s [= <-].
      + intros [Hm Ht]. split; [by apply Ht | done].
    - split; [done|]. intros m. split; [|tauto]. intros Hm. split; [done|].
      by intros s [=]. }
  assert (fm2 `sublist_of` fm1
          ∧ ∀ m, m ∈ fm2 ↔ m ∈ fm1
                 ∧ ∀ s, selSeries = Some s → s ≠ "" →
                        ∃ t, tm !! tournamentId m = Some t ∧ series t = s)
    as [Hsub2 H2].
  { unfold fm2. destruct selSeries as [s0|]; [|split; [done|]; intros m; naive_solver].
    destruct (truthy (Some s0)) eqn:Ht.
    - apply truthy_Some in Ht. split; [apply sublist_filter|]. intros m.
      rewrite list_elem_of_filter, in_series_true. split.
      + intros [Hs Hm]. split; [done|]. by intros s [= <-] _.
      + intros [Hm Hs]. split; [by apply Hs | done].
    - split; [done|]. intros m. split; [|tauto]. intros Hm. split; [done|].
      intros s [= <-] Hne. apply (proj2 (truthy_Some _)) in Hne.
      simpl in Hne, Ht. rewrite Hne in Ht. discriminate Ht. }
  destruct rounds as [|r0 rounds]; simpl.
  - split; [by etrans|]. intros m. rewrite H2, H1. naive_solver.
  - split; [etrans; [apply sublist_filter|by etrans]|]. intros m.
    rewrite list_elem_of_filter, H2, H1. naive_solver.
Qed.

(** X8: the three filters act as one conjunctive filter.  The surviving
    matches are a sublist of the input (order kept), and a match survives
    exactly when its tournament resolves to the selected surface (if one is
    selected), resolves to the selected series (if a non-empty one is
    selected) and its round is in the whitelist (if the whitelist is not
    empty). *)
Theorem filteredMatches_conjunctive
    (matches : list Match) (tm : gmap string Tournament)
    (selSurface : option Surface) (selSeries : option Series) (rounds : list Round) :
  filteredMatches matches tm selSurface selSeries rounds `sublist_of` matches
  ∧ ∀ m, m ∈ filteredMatches matches tm selSurface selSeries rounds
         ↔ m ∈ matches ∧ passes tm selSurface selSeries rounds m.
Proof. apply filteredMatches_spec. Qed.

Lemma pairs_of_round_cons dm m fm r :
  pairs_of_round dm (m :: fm) r =
    match pair_of dm m with
    | Some p => if decide (round m = r) then p :: pairs_of_round dm fm r
                else pairs_of_round dm fm r
    | None => pairs_of_round dm fm r
    end.
Proof.
  unfold pairs_of_round. rewrite filter_cons.
  destruct (decide (round m = r)); simpl; destruct (pair_of dm m); done.
Qed.

(** The group of a round after the loop: what was there, then the pairs of
    the matches of that round, in the order of the list. *)
Lemma foldl_add_pair_lookup dm fm r : ∀ groups : gmap Round (list Pair),
  foldl (add_pair dm) groups fm !! r =
    match groups !! r with
    | Some l0 => Some (l0 ++ pairs_of_round dm fm r)
    | None => match pairs_of_round dm fm r with
              | [] => None
              | l => Some l
              end
    end.
Proof.
  induction fm as [|m fm IH]; intros groups; simpl.
  - destruct (groups !! r); [by rewrite app_nil_r | done].
  - rewrite IH, add_pair_lookup, pairs_of_round_cons.
    destruct (pair_of dm m) as [p|]; [|done].
    destruct (decide (round m = r)); [|done].
    destruct (groups !! r) as [l0|]; simpl; [by rewrite <- app_assoc | done].
Qed.

Lemma roundGroups_lookup dm fm r :
  roundGroups dm fm !! r =
    match pairs_of_round dm fm r with
    | [] => None
    | l => Some l
    end.
Proof. unfold roundGroups. by rewrite foldl_add_pair_lookup, lookup_empty. Qed.

(** X9: the group stored under a round holds exactly the matches of that
    round that survived the filters and have a derived metric with a rank
    difference, each paired with that metric, in the order of the match
    list; the round is absent when there is no such match. *)
Theorem group_is_qualifying_matches_in_order
    (matches : list Match) (derived : list Derived) (tournaments : list Tournament)
    (selSurface : option Surface) (selSeries : option Series) (rounds : list Round)
    (r : Round) (l : list Pair) :
  groupByRound matches derived tournaments selSurface selSeries rounds !! r = Some l
  ↔ l ≠ []
    ∧ l = pairs_of_round (derivedMap derived)
            (filteredMatches matches (tournamentsMap tournaments)
               selSurface selSeries rounds) r.
Proof.
  unfold groupByRound. rewrite roundGroups_lookup.
  destruct (pairs_of_round _ _ r) as [|p l']; split.
  - done.
  - by intros [? ->].
  - by intros [= <-].
  - by intros [_ ->].
Qed.

Lemma allRounds_complete r : r ∈ allRounds.
Proof. unfold allRounds. destruct r; set_solver. Qed.

Lemma pairs_of_round_elem dm fm r p :
  p ∈ pairs_of_round dm fm r ↔ ∃ m, m ∈ fm ∧ round m = r ∧ pair_of dm m = Some p.
Proof.
  unfold pairs_of_round. rewrite list_elem_of_omap. split.
  - intros (m & Hm & Hp). apply list_elem_of_filter in Hm as [Hr Hm]. eauto.
  - intros (m & Hm & Hr & Hp). exists m. split; [|done].
    by apply list_elem_of_filter.
Qed.

Lemma roundsToShow_elem dm fm r :
  r ∈ roundsToShow (roundGroups dm fm)
  ↔ ∃ m, m ∈ fm ∧ round m = r ∧ is_Some (pair_of dm m).
Proof.
  unfold roundsToShow. rewrite list_elem_of_filter, roundGroups_lookup.
  split.
  - intros [Hsome _]. destruct (pairs_of_round dm fm r) as [|p l] eqn:Hl.
    + by destruct Hsome.
    + assert (p ∈ pairs_of_round dm fm r) as Hp by (rewrite Hl; left).
      apply pairs_of_round_elem in Hp as (m & ? & ? & Hp). exists m.
      rewrite Hp. eauto.
  - intros (m & Hm & Hr & [p Hp]). split; [|apply allRounds_complete].
    assert (p ∈ pairs_of_round dm fm r) as Hin
      by (apply pairs_of_round_elem; eauto).
    destruct (pairs_of_round dm fm r); [inversion Hin | eauto].
Qed.

(** X10: the rounds on the axis are those with at least one surviving match
    that has a derived metric with a rank difference, in the canonical order
    1R, 2R, 3R, 4R, QF, SF, F; the chart is left undrawn (no round to show)
    exactly when no surviving match has such a metric. *)
Theorem roundsToShow_canonical_nonempty_rounds
    (matches : list Match) (derived : list Derived) (tournaments : list Tournament)
    (selSurface : option Surface) (selSeries : option Series) (rounds : list Round) :
  let fm := filteredMatches matches (tournamentsMap tournaments)
              selSurface selSeries rounds in
  let groups := groupByRound matches derived tournaments selSurface selSeries rounds in
  roundsToShow groups `sublist_of` [R1; R2; R3; R4; QF; SF; F]
  ∧ (∀ r, r ∈ roundsToShow groups
          ↔ ∃ m, m ∈ fm ∧ round m = r ∧ is_Some (pair_of (derivedMap derived) m))
  ∧ (roundsToShow groups = []
     ↔ ∀ m, m ∈ fm → pair_of (derivedMap derived) m = None).
Proof.
  intros fm groups. split; [apply sublist_filter|].
  split; [intros r; apply roundsToShow_elem|].
  unfold groups, groupByRound. fold fm. split.
  - intros Hnil m Hm. destruct (pair_of (derivedMap derived) m) as [p|] eqn:Hp; [|done].
    assert (round m ∈ roundsToShow (roundGroups (derivedMap derived) fm)) as Hin.
    { apply roundsToShow_elem. exists m. rewrite Hp. eauto. }
    rewrite Hnil in Hin. inversion Hin.
  - intros Hnone.
    destruct (roundsToShow (roundGroups (derivedMap derived) fm)) as [|r l] eqn:Hl; [done|].
    assert (r ∈ roundsToShow (roundGroups (derivedMap derived) fm)) as Hin
      by (rewrite Hl; left).
    apply roundsToShow_elem in Hin as (m & Hm & _ & [p Hp]).
    rewrite (Hnone m Hm) in Hp. discriminate.
Qed.

(** Splitting a list of matches by round and putting the parts one after
    the other rearranges it. *)
Lemma split_by_round {B} (f : Match → option B) (l : list Match) :
  allRounds ≫= (λ r, omap f (filter (λ m, round m = r) l)) ≡ₚ omap f l.
Proof.
  assert (∀ g : Round → list B, @nil Round ≫= g = []) as Hnil by done.
  unfold allRounds. rewrite !bind_cons, Hnil, app_nil_r. clear Hnil.
  induction l as [|x l IH]; [done|].
  rewrite !filter_cons. simpl omap at 8.
  destruct (f x) as [b|] eqn:Hb.
  - rewrite <- IH.
    destruct (round x); simpl; rewrite ?Hb; simpl;
      rewrite <- ?Permutation_middle; done.
  - rewrite <- IH. destruct (round x); simpl; rewrite ?Hb; done.
Qed.

Lemma drawn_roundGroups dm fm :
  drawn (roundGroups dm fm) = allRounds ≫= pairs_of_round dm fm.
Proof.
  unfold drawn, roundsToShow.
  induction allRounds as [|r rs IH]; [done|].
  rewrite filter_cons, bind_cons, <- IH.
  rewrite roundGroups_lookup.
  destruct (pairs_of_round dm fm r) as [|p l] eqn:Hl.
  - rewrite decide_False by (by intros [? ?]). done.
  - rewrite decide_True by eauto. rewrite bind_cons.
    by rewrite roundGroups_lookup, Hl.
Qed.

(** X11: every surviving match that has a derived metric with a rank
    difference is drawn exactly once: the pairs of all drawn groups are a
    rearrangement of these matches with their metrics. *)
Theorem every_qualifying_match_drawn_once
    (matches : list Match) (derived : list Derived) (tournaments : list Tournament)
    (selSurface : option Surface) (selSeries : option Series) (rounds : list Round) :
  drawn (groupByRound matches derived tournaments selSurface selSeries rounds)
  ≡ₚ omap (pair_of (derivedMap derived))
       (filteredMatches matches (tournamentsMap tournaments)
          selSurface selSeries rounds).
Proof.
  unfold groupByRound. rewrite drawn_roundGroups. apply split_by_round.
Qed.

End ChartFacts.

(** * Properties of the tooltip *)

Section TooltipFacts.

Import Tooltip.

Variable querySelector : list Div → string → Query.

Local Abbreviation initTooltip := (Tooltip.initTooltip querySelector).
Local Abbreviation showTooltip := (Tooltip.showTooltip querySelector).
Local Abbreviation call := (Tooltip.call querySelector).
Local Abbreviation run := (Tooltip.run querySelector).

Lemma run_app st calls1 calls2 :
  run st (calls1 ++ calls2) = run (run st calls1) calls2.
Proof. unfold Tooltip.run. apply foldl_app. Qed.

Lemma on_tooltip_current f st :
  well_formed st → current (on_tooltip f st) = f <$> current st.
Proof.
  unfold on_tooltip, current, well_formed.
  destruct (tooltip st) as [i|] eqn:Hi; simpl; [|by rewrite Hi].
  intros _. apply list_lookup_alter_eq.
Qed.

Lemma on_tooltip_well_formed f st : well_formed st → well_formed (on_tooltip f st).
Proof.
  unfold on_tooltip, well_formed. destruct (tooltip st) as [i|] eqn:Hi; [|by rewrite Hi].
  simpl. by rewrite length_alter.
Qed.

Lemma initTooltip_Some c st st' :
  initTooltip c st = Some st' →
  ∃ e, st' = {| dom := dom st ++ [new_div e]; tooltip := Some (length (dom st)) |}.
Proof.
  unfold Tooltip.initTooltip. destruct (containerElement querySelector c st) as [e|]; [|done].
  intros [= <-]. eauto.
Qed.

Lemma initTooltip_well_formed c st st' : initTooltip c st = Some st' → well_formed st'.
Proof.
  intros H. apply initTooltip_Some in H as [e ->].
  unfold well_formed. simpl. rewrite length_app. simpl. lia.
Qed.

Lemma initTooltip_body st :
  initTooltip (Element Body) st
  = Some {| dom := dom st ++ [new_div Body]; tooltip := Some (length (dom st)) |}.
Proof. done. Qed.

Lemma call_well_formed st c : well_formed st → well_formed (call st c).
Proof.
  intros Hwf. destruct c as [c|d e| |e]; simpl.
  - destruct (initTooltip c st) as [st'|] eqn:Hinit; simpl; [|done].
    by eapply initTooltip_well_formed.
  - unfold Tooltip.showTooltip. destruct (tooltip st) as [i|] eqn:Hi.
    + rewrite Hi. by apply on_tooltip_well_formed.
    + simpl. apply on_tooltip_well_formed.
      by apply (initTooltip_well_formed (Element Body) st).
  - by apply on_tooltip_well_formed.
  - by apply on_tooltip_well_formed.
Qed.

Lemma run_well_formed calls : ∀ st, well_formed st → well_formed (run st calls).
Proof.
  induction calls as [|c calls IH]; intros st Hwf; [done|].
  simpl. by apply IH, call_well_formed.
Qed.

Lemma well_formed_current st : well_formed st → tooltip st ≠ None → is_Some (current st).
Proof.
  unfold well_formed, current. destruct (tooltip st) as [i|]; [|done].
  intros Hi _. simpl. by apply lookup_lt_is_Some.
Qed.

(** What [showTooltip] leaves in the current element. *)
Lemma showTooltip_current data event st :
  well_formed st →
  ∃ p, current (showTooltip data event st)
       = Some {| parent := p;
                 html := render data;
                 opacity := 1;
                 left := Some (or_else (x data) (pageX event) + 10)%Q;
                 top := Some (or_else (y data) (pageY event) - 10)%Q |}.
Proof.
  intros Hwf. unfold Tooltip.showTooltip.
  destruct (tooltip st) as [i|] eqn:Hi.
  - rewrite Hi, on_tooltip_current by done.
    destruct (well_formed_current st Hwf) as [div Hdiv]; [congruence|].
    rewrite Hdiv. simpl. eauto.
  - simpl. rewrite on_tooltip_current
      by (by apply (initTooltip_well_formed (Element Body) st)).
    unfold current. simpl. rewrite list_lookup_middle by done. simpl. eauto.
Qed.

Lemma moves_keep_content moves : ∀ st div,
  Forall (λ c, is_move c = true) moves →
  well_formed st →
  current st = Some div →
  ∃ div', current (run st moves) = Some div'
          ∧ parent div' = parent div ∧ html div' = html div
          ∧ opacity div' = opacity div.
Proof.
  induction moves as [|c moves IH]; intros st div Hmoves Hwf Hcur; [by eauto|].
  apply Forall_cons in Hmoves as [Hc Hmoves]. destruct c as [| | |e]; try done.
  simpl.
  destruct (IH (moveTooltip e st)
              {| parent := parent div; html := html div; opacity := opacity div;
                 left := Some (pageX e + 10)%Q; top := Some (pageY e - 10)%Q |})
    as (div' & Hdiv' & ?); [done| | |by eauto].
  - by apply on_tooltip_well_formed.
  - unfold moveTooltip. rewrite on_tooltip_current by done. by rewrite Hcur.
Qed.

Lemma moves_without_tooltip moves : ∀ st,
  Forall (λ c, is_move c = true) moves → tooltip st = None → run st moves = st.
Proof.
  induction moves as [|c moves IH]; intros st Hmoves Hnone; [done|].
  apply Forall_cons in Hmoves as [Hc Hmoves]. destruct c as [| | |e]; try done.
  simpl. unfold moveTooltip, on_tooltip. rewrite Hnone. by apply IH.
Qed.

Lemma initial_well_formed : well_formed initial.
Proof. done. Qed.

Lemma showTooltip_well_formed data event st :
  well_formed st → well_formed (showTooltip data event st).
Proof. intros Hwf. by apply (call_well_formed st (CallShow data event)). Qed.

Lemma call_lazily_created st c :
  is_init c = false → lazily_created st →
  lazily_created (call st c)
  ∧ (dom (call st c) = [] ↔ dom st = [] ∧ is_show c = false).
Proof.
  intros Hc [[Hnone Hdom]|(Hsome & div & Hdom & Hparent)].
  - destruct c as [?|data event| |event]; try done; simpl.
    + split.
      * right. unfold Tooltip.showTooltip. rewrite Hnone. simpl.
        unfold on_tooltip. simpl. rewrite Hdom. simpl. eauto.
      * unfold Tooltip.showTooltip. rewrite Hnone. simpl.
        unfold on_tooltip. simpl. rewrite Hdom. simpl. split; [done | by intros [_ ?]].
    + unfold hideTooltip, on_tooltip. rewrite Hnone. split; [by left | tauto].
    + unfold moveTooltip, on_tooltip. rewrite Hnone. split; [by left | tauto].
  - destruct c as [?|data event| |event]; try done; simpl.
    + unfold Tooltip.showTooltip. rewrite Hsome. unfold on_tooltip.
      rewrite Hsome, Hdom. simpl. split; [|split; [done | by intros [? _]]].
      right. split; [done|]. eauto.
    + unfold hideTooltip, on_tooltip. rewrite Hsome, Hdom. simpl.
      split; [|split; [done | by intros [? _]]]. right. split; [done|]. eauto.
    + unfold moveTooltip, on_tooltip. rewrite Hsome, Hdom. simpl.
      split; [|split; [done | by intros [? _]]]. right. split; [done|]. eauto.
Qed.

Lemma run_lazily_created calls : ∀ st,
  Forall (λ c, is_init c = false) calls → lazily_created st →
  lazily_created (run st calls)
  ∧ (dom (run st calls) = [] ↔ dom st = [] ∧ Forall (λ c, is_show c = false) calls).
Proof.
  induction calls as [|c calls IH]; intros st Hcalls Hst.
  - simpl. split; [done|]. split; [by intros ? | by intros [? _]].
  - apply Forall_cons in Hcalls as [Hc Hcalls].
    destruct (call_lazily_created st c Hc Hst) as [Hst' Hdom'].
    destruct (IH (call st c) Hcalls Hst') as [Hfin Hdom].
    simpl. split; [done|]. rewrite Hdom, Hdom', Forall_cons. tauto.
Qed.


End TooltipFacts.

(** ** What a user of the tooltip can rely on *)

Section TooltipClaims.

Import Tooltip.

(** X15: whatever was called before, after [showTooltip] and any number of
    [moveTooltip] calls the tooltip is visible and shows the rendered data
    of that call; it sits 10 pixels right of and above the position given to
    the last call.  After [hideTooltip] and any number of [moveTooltip]
    calls the tooltip, if there is one, is invisible. *)
Theorem tooltip_visible_after_show_hidden_after_hide
    (querySelector : list Div → string → Query) (calls : list Call) (data : TooltipData) (event : MouseEvent)
    (moves : list Call) :
  Forall (λ c, is_move c = true) moves →
  (∃ div, current (run querySelector initial (calls ++ CallShow data event :: moves)) = Some div
          ∧ opacity div = 1
          ∧ html div = render data
          ∧ (moves = [] →
             left div = Some (or_else (x data) (pageX event) + 10)%Q
             ∧ top div = Some (or_else (y data) (pageY event) - 10)%Q)
          ∧ (∀ ms e, moves = ms ++ [CallMove e] →
               left div = Some (pageX e + 10)%Q
               ∧ top div = Some (pageY e - 10)%Q))
  ∧ (∀ div, current (run querySelector initial (calls ++ CallHide :: moves)) = Some div →
            opacity div = 0).
Proof.
  intros Hmoves.
  assert (well_formed (run querySelector initial calls)) as Hwf
    by apply run_well_formed, initial_well_formed.
  split.
  - rewrite run_app. simpl. set (st0 := run querySelector initial calls) in *.
    destruct (showTooltip_current querySelector data event st0 Hwf) as [p Hshow].
    assert (well_formed (showTooltip querySelector data event st0)) as Hwf1
      by (by apply showTooltip_well_formed).
    destruct (moves_keep_content querySelector moves _ _ Hmoves Hwf1 Hshow)
      as (div & Hdiv & _ & Hhtml & Hop).
    exists div. split; [done|]. split; [done|]. split; [done|]. split.
    + intros ->. simpl in Hdiv. rewrite Hshow in Hdiv. by injection Hdiv as <-.
    + intros ms e ->. rewrite run_app in Hdiv. simpl in Hdiv.
      apply Forall_app in Hmoves as [Hms _].
      destruct (moves_keep_content querySelector ms _ _ Hms Hwf1 Hshow) as (div1 & Hdiv1 & _).
      unfold moveTooltip in Hdiv.
      rewrite on_tooltip_current in Hdiv by (by apply run_well_formed).
      rewrite Hdiv1 in Hdiv. by injection Hdiv as <-.
  - intros div. rewrite run_app. simpl. set (st0 := run querySelector initial calls) in *.
    destruct (tooltip st0) as [i|] eqn:Hi.
    + destruct (well_formed_current st0 Hwf) as [div0 Hdiv0]; [congruence|].
      assert (well_formed (hideTooltip st0)) as Hwf1
        by (by apply on_tooltip_well_formed).
      assert (current (hideTooltip st0)
              = Some {| parent := parent div0; html := html div0; opacity := 0;
                        left := left div0; top := top div0 |}) as Hhide.
      { unfold hideTooltip. rewrite on_tooltip_current by done. by rewrite Hdiv0. }
      destruct (moves_keep_content querySelector moves _ _ Hmoves Hwf1 Hhide)
        as (div' & Hdiv' & _ & _ & Hop).
      rewrite Hdiv'. by intros [= <-].
    + assert (hideTooltip st0 = st0) as ->
        by (unfold hideTooltip, on_tooltip; by rewrite Hi).
      rewrite moves_without_tooltip by done.
      unfold current. by rewrite Hi.
Qed.

(** The statement above, on a sample sequence of calls. *)
Lemma tooltip_visible_after_show_hidden_after_hide_witness :
  let data := {| title := Some "Ada vs Bo"; content := Lines ["Round: QF"];
                 x := None; y := None |} in
  let event := {| pageX := 100; pageY := 50 |} in
  let moves := [CallMove {| pageX := 120; pageY := 60 |}] in
  (∃ div, current (run (λ _ _, NoMatch) initial ([CallHide] ++ CallShow data event :: moves)) = Some div
          ∧ opacity div = 1
          ∧ html div = render data
          ∧ (moves = [] →
             left div = Some (or_else (x data) (pageX event) + 10)%Q
             ∧ top div = Some (or_else (y data) (pageY event) - 10)%Q)
          ∧ (∀ ms e, moves = ms ++ [CallMove e] →
               left div = Some (pageX e + 10)%Q
               ∧ top div = Some (pageY e - 10)%Q))
  ∧ (∀ div, current (run (λ _ _, NoMatch) initial ([CallHide] ++ CallHide :: moves)) = Some div →
            opacity div = 0).
Proof.
  apply (tooltip_visible_after_show_hidden_after_hide (λ _ _, NoMatch) [CallHide]).
  repeat constructor.
Defined.

(** X16: as long as [initTooltip] is not called explicitly, the page holds
    at most one tooltip element.  It is created under the page body by the
    first [showTooltip] and reused afterwards; [hideTooltip] and
    [moveTooltip] never create it. *)
Theorem tooltip_created_once_on_first_show
    (querySelector : list Div → string → Query) (calls : list Call) :
  Forall (λ c, is_init c = false) calls →
  let st := run querySelector initial calls in
  (length (dom st) ≤ 1)%nat
  ∧ (dom st = [] ↔ Forall (λ c, is_show c = false) calls)
  ∧ (tooltip st = None ↔ dom st = [])
  ∧ (∀ div, div ∈ dom st → parent div = Body).
Proof.
  intros Hcalls st.
  destruct (run_lazily_created querySelector calls initial Hcalls) as [Hst Hdom]; [by left|].
  fold st in Hst, Hdom.
  split; [|split; [|split]].
  - destruct Hst as [[_ ->]|(_ & div & -> & _)]; simpl; lia.
  - rewrite Hdom. simpl. tauto.
  - destruct Hst as [[-> ->]|(-> & div & -> & _)]; done.
  - intros div Hdiv. destruct Hst as [[_ Hnil]|(_ & div' & Hd & Hp)].
    + rewrite Hnil in Hdiv. inversion Hdiv.
    + rewrite Hd in Hdiv. by apply list_elem_of_singleton in Hdiv as ->.
Qed.

(** The statement above, on a sample sequence of calls. *)
Lemma tooltip_created_once_on_first_show_witness :
  let calls := [ CallHide;
                 CallShow {| title := None; content := Text "a"; x := None; y := None |}
                          {| pageX := 1; pageY := 2 |};
                 CallMove {| pageX := 3; pageY := 4 |};
                 CallShow {| title := None; content := Text "b"; x := None; y := None |}
                          {| pageX := 5; pageY := 6 |} ] in
  let st := run (λ _ _, NoMatch) initial calls in
  (length (dom st) ≤ 1)%nat
  ∧ (dom st = [] ↔ Forall (λ c, is_show c = false) calls)
  ∧ (tooltip st = None ↔ dom st = [])
  ∧ (∀ div, div ∈ dom st → parent div = Body).
Proof.
  apply (tooltip_created_once_on_first_show (λ _ _, NoMatch)). repeat constructor.
Defined.

(** An invalid selector makes [initTooltip] throw before anything is
    appended: the element shown before stays the current one, and the
    [hideTooltip] that follows hides it. *)
Example invalid_selector_keeps_tooltip :
  let querySelector := λ (_ : list Div) (s : string),
                         if String.eqb s "##" then Invalid else NoMatch in
  let st := run querySelector initial
              [ CallShow {| title := None; content := Text "a"; x := None; y := None |}
                         {| pageX := 1; pageY := 2 |};
                CallInit (Selector "##");
                CallHide ] in
  tooltip st = Some 0%nat
  ∧ dom st = [ {| parent := Body; html := "a"; opacity := 0;
                  left := Some (1 + 10)%Q; top := Some (2 - 10)%Q |} ].
Proof. split; reflexivity. Qed.



End TooltipClaims.

(** * Scale domain, circles and hover text of the competitiveness chart *)

Section ChartPlotFacts.

Import Competitiveness GroupSpec ChartSpec ChartPlot Demo.

Lemma Math_min_spec (l : list Q) :
  l ≠ [] →
  ∃ lo, Math_min l = Finite lo ∧ lo ∈ l ∧ ∀ v, v ∈ l → (lo <= v)%Q.
Proof.
  induction l as [|v l IH]; [done|]. intros _. simpl.
  destruct l as [|w l'].
  - simpl. exists v. split; [done|]. split; [left|].
    intros u Hu. apply list_elem_of_singleton in Hu as ->. apply Qle_refl.
  - destruct IH as (m & -> & Hm & Hle); [done|].
    destruct (Qle_bool v m) eqn:Hvm.
    + apply Qle_bool_iff in Hvm. exists v. split; [done|]. split; [left|].
      intros u Hu. apply elem_of_cons in Hu as [->|Hu]; [apply Qle_refl|].
      eapply Qle_trans; [exact Hvm | by apply Hle].
    + assert (m <= v)%Q as Hmv.
      { apply Qlt_le_weak, Qnot_le_lt. intros Hc.
        apply Qle_bool_iff in Hc. congruence. }
      exists m. split; [done|]. split; [by right|].
      intros u Hu. apply elem_of_cons in Hu as [->|Hu]; [done | by apply Hle].
Qed.

Lemma Math_max_spec (l : list Q) :
  l ≠ [] →
  ∃ hi, Math_max l = Finite hi ∧ hi ∈ l ∧ ∀ v, v ∈ l → (v <= hi)%Q.
Proof.
  induction l as [|v l IH]; [done|]. intros _. simpl.
  destruct l as [|w l'].
  - simpl. exists v. split; [done|]. split; [left|].
    intros u Hu. apply list_elem_of_singleton in Hu as ->. apply Qle_refl.
  - destruct IH as (m & -> & Hm & Hle); [done|].
    destruct (Qle_bool m v) eqn:Hvm.
    + apply Qle_bool_iff in Hvm. exists v. split; [done|]. split; [left|].
      intros u Hu. apply elem_of_cons in Hu as [->|Hu]; [apply Qle_refl|].
      eapply Qle_trans; [by apply Hle | exact Hvm].
    + assert (v <= m)%Q as Hmv.
      { apply Qlt_le_weak, Qnot_le_lt. intros Hc.
        apply Qle_bool_iff in Hc. congruence. }
      exists m. split; [done|]. split; [by right|].
      intros u Hu. apply elem_of_cons in Hu as [->|Hu]; [done | by apply Hle].
Qed.

Lemma flat_elem keys (groups : gmap Round (list Pair)) p :
  p ∈ flat keys groups ↔ ∃ r l, r ∈ keys ∧ groups !! r = Some l ∧ p ∈ l.
Proof.
  unfold flat. rewrite list_elem_of_bind. split.
  - intros (r & Hp & Hr). destruct (groups !! r) as [l|] eqn:Hl; [eauto|].
    inversion Hp.
  - intros (r & l & Hr & Hl & Hp). exists r. by rewrite Hl.
Qed.

(** X12: whenever a pair is drawn, the domain given to the linear scale is
    a pair of numbers [lo ≤ hi] that contains the value of every pair of
    every group, and both ends are the value of some pair. *)
Theorem yDomain_spans_all_values
    (keys : list Round) (groups : gmap Round (list Pair))
    (r : Round) (l : list Pair) (p : Pair) :
  (∀ r', is_Some (groups !! r') → r' ∈ keys) →
  groups !! r = Some l →
  p ∈ l →
  ∃ lo hi,
    yDomain keys groups = (Finite lo, Finite hi)
    ∧ (lo <= value_of p <= hi)%Q
    ∧ (∃ r1 l1 p1, groups !! r1 = Some l1 ∧ p1 ∈ l1 ∧ value_of p1 = lo)
    ∧ (∃ r2 l2 p2, groups !! r2 = Some l2 ∧ p2 ∈ l2 ∧ value_of p2 = hi).
Proof.
  intros Hkeys Hl Hp.
  assert (p ∈ flat keys groups) as Hflat.
  { apply flat_elem. exists r, l. split; [apply Hkeys; eauto | done]. }
  assert (value_of p ∈ value_of <$> flat keys groups) as Hv
    by (by apply list_elem_of_fmap_2).
  assert (value_of <$> flat keys groups ≠ []) as Hne
    by (intros Hnil; rewrite Hnil in Hv; inversion Hv).
  destruct (Math_min_spec _ Hne) as (lo & Hmin & Hlo & Hle).
  destruct (Math_max_spec _ Hne) as (hi & Hmax & Hhi & Hge).
  exists lo, hi. unfold yDomain. rewrite Hmin, Hmax.
  split; [done|]. split; [split; [by apply Hle | by apply Hge]|].
  split.
  - apply list_elem_of_fmap in Hlo as (p1 & -> & Hp1).
    apply flat_elem in Hp1 as (r1 & l1 & _ & ? & ?). eauto 6.
  - apply list_elem_of_fmap in Hhi as (p2 & -> & Hp2).
    apply flat_elem in Hp2 as (r2 & l2 & _ & ? & ?). eauto 6.
Qed.

(** The statement above, on the sample data. *)
Lemma yDomain_spans_all_values_witness :
  let groups := groupByRound demo_matches demo_derived demo_tournaments None None [] in
  let p := {| p_match := mk_match "m1" "t-clay" "P1" "P2" R1;
              p_derived := {| matchId := "m1"; rankDiff := Some (5 # 1) |} |} in
  ∃ lo hi,
    yDomain [R1; QF] groups = (Finite lo, Finite hi)
    ∧ (lo <= value_of p <= hi)%Q
    ∧ (∃ r1 l1 p1, groups !! r1 = Some l1 ∧ p1 ∈ l1 ∧ value_of p1 = lo)
    ∧ (∃ r2 l2 p2, groups !! r2 = Some l2 ∧ p2 ∈ l2 ∧ value_of p2 = hi).
Proof.
  apply (yDomain_spans_all_values [R1; QF] _ R1
           [ {| p_match := mk_match "m1" "t-clay" "P1" "P2" R1;
                p_derived := {| matchId := "m1"; rankDiff := Some (5 # 1) |} |} ]).
  - intros r' Hr'. destruct r'; try (left; fail); try (right; left; fail);
      vm_compute in Hr'; by destruct Hr'.
  - vm_compute. reflexivity.
  - left.
Defined.

(** Every laid-out point sits at the mapped position of its value and
    carries one of the input points. *)
Lemma layout_positions {T} (pts : list (Layout.Point T)) (f : Q → Q) (r : Q) out :
  Layout.beeswarmLayout pts f r = Some out →
  ∀ b, b ∈ out → Layout.y b = f (Layout.b_value b) ∧ LayoutSpec.source b ∈ pts.
Proof.
  unfold Layout.beeswarmLayout. intros Hout b Hb.
  apply (sweep_elem _ _ _ _ _ Hout) in Hb.
  rewrite sort_by_y_perm in Hb.
  apply (list_elem_of_fmap (λ p, (p, f (Layout.value p)))) in Hb
    as (p & [= Hsrc Hy] & Hp).
  rewrite Hy, <- Hsrc. split; [done|]. by rewrite Hsrc.
Qed.

(** X13: the circles of a round are all drawn on the vertical line through
    the middle of the round's band: the offsets computed by the layout are
    not used.  One circle is drawn per pair of the group, and two pairs with
    the same rank difference are drawn at the same centre. *)
Theorem equal_rank_differences_drawn_on_same_spot
    (yScale : Q → Q) (xPos : Q) (data : list Pair) :
  ∃ out, Plot.beeswarmData yScale data = Some out
  ∧ length (circle xPos <$> out) = length data
  ∧ (∀ a, a ∈ out → (circle xPos a).1 = xPos)
  ∧ (∀ a b, a ∈ out → b ∈ out →
       rankDiff (p_derived (Layout.b_payload a))
         = rankDiff (p_derived (Layout.b_payload b)) →
       circle xPos a = circle xPos b).
Proof.
  unfold Plot.beeswarmData.
  set (pts := map (λ d, {| Layout.value := default 0%Q (rankDiff (p_derived d));
                           Layout.payload := d |}) data).
  destruct (layout_runs pts (λ val, yScale val) 4) as [out Hout].
  exists out. split; [done|].
  assert (∀ a, a ∈ out →
            Layout.y a = yScale (default 0%Q (rankDiff (p_derived (Layout.b_payload a)))))
    as Hy.
  { intros a Ha. destruct (layout_positions _ _ _ _ Hout a Ha) as [-> Hsrc].
    apply (list_elem_of_fmap (λ d, {| Layout.value := default 0%Q (rankDiff (p_derived d));
                                 Layout.payload := d |})) in Hsrc
      as (d & Hd & _).
    unfold LayoutSpec.source in Hd. injection Hd as -> ->. done. }
  split; [|split; [done|]].
  - rewrite length_fmap.
    unfold Layout.beeswarmLayout in Hout.
    rewrite <- (length_fmap (λ b, (LayoutSpec.source b, Layout.y b)) out).
    rewrite (sweep_sources _ _ _ _ Hout), sort_by_y_perm.
    unfold pts. by rewrite !length_map.
  - intros a b Ha Hb Heq. unfold circle. by rewrite (Hy a Ha), (Hy b Hb), Heq.
Qed.

Lemma append_nonempty (a b : string) (c : Ascii.ascii) :
  String.eqb (a ++ String c b) "" = false.
Proof. apply String.eqb_neq. by destruct a. Qed.

Lemma display_name_nonempty players playerId : display_name players playerId ≠ "".
Proof.
  unfold display_name. destruct (ProfileChart.find_player players playerId) as [p|].
  - destruct (String.eqb (ProfileChart.pl_name p) "") eqn:He; [done|].
    by apply String.eqb_neq.
  - done.
Qed.

(** X14: hovering a circle always leaves a visible tooltip, 10 pixels right
    of and above the pointer, whose text starts with a bold heading naming
    the two players (never an empty name: an unknown or unnamed player is
    shown as Unknown) followed by the round, the rank difference and the
    date, one per line. *)
Theorem hover_shows_headed_tooltip
    (querySelector : list Tooltip.Div → string → Tooltip.Query)
    (formatRound : Round → string) (formatInteger : Q → string)
    (players : list ProfileChart.Player) (r : Round)
    (d : Layout.BeeswarmPoint Pair) (event : Tooltip.MouseEvent)
    (calls : list Tooltip.Call) :
  let pair := Layout.b_payload d in
  let winner := display_name players (winnerId (p_match pair)) in
  let loser := display_name players (loserId (p_match pair)) in
  winner ≠ "" ∧ loser ≠ ""
  ∧ ∃ div,
      Tooltip.current
        (Tooltip.showTooltip querySelector
           (hover formatRound formatInteger players r d) event
           (Tooltip.run querySelector Tooltip.initial calls)) = Some div
      ∧ Tooltip.opacity div = 1
      ∧ Tooltip.html div
        = ("<strong>" ++ (winner ++ " vs " ++ loser) ++ "</strong><br/>"
           ++ ("Round: " ++ formatRound r) ++ "<br/>"
           ++ ("Rank Diff: " ++ formatInteger (value_of pair)) ++ "<br/>"
           ++ ("Date: " ++ date (p_match pair)))%string
      ∧ Tooltip.left div = Some (Tooltip.pageX event + 10)%Q
      ∧ Tooltip.top div = Some (Tooltip.pageY event - 10)%Q.
Proof.
  intros pair winner loser.
  split; [apply display_name_nonempty|]. split; [apply display_name_nonempty|].
  assert (Tooltip.well_formed (Tooltip.run querySelector Tooltip.initial calls)) as Hwf
    by apply run_well_formed, initial_well_formed.
  destruct (showTooltip_current querySelector
              (hover formatRound formatInteger players r d) event _ Hwf) as [p Hp].
  eexists. split; [exact Hp|]. simpl. split; [done|]. split; [|done].
  unfold Tooltip.render. simpl. fold pair. fold winner. fold loser.
  assert (String.eqb (winner ++ " vs " ++ loser) "" = false) as ->
    by apply append_nonempty.
  done.
Qed.

End ChartPlotFacts.

(** * Lookups built from lists, and filters seen from the groups *)

Section LookupAndFilterFacts.

Import Competitiveness GroupSpec ChartSpec Demo.

Lemma Map_of_last {V} (key : V → string) (xs : list V) (k : string) :
  Map_of key xs !! k = last (filter (λ v, key v = k) xs).
Proof.
  unfold Map_of. induction xs as [|x xs IH] using rev_ind; [done|].
  rewrite foldl_app, filter_app. simpl.
  destruct (decide (key x = k)) as [<-|Hne].
  - rewrite lookup_insert_eq.
    rewrite (filter_cons_True (λ v, key v = key x)) by done.
    by rewrite filter_nil, last_snoc.
  - rewrite lookup_insert_ne by done.
    rewrite (filter_cons_False (λ v, key v = k)) by done.
    by rewrite filter_nil, app_nil_r.
Qed.

(** X18: the lookups built with [new Map(list.map(x => [key, x]))] resolve
    an id to the last record of the list with that id, and to nothing when
    no record has it: among tournaments (or derived metrics) that share an
    id, the last one is used. *)
Theorem lookup_resolves_to_last_record
    (tournaments : list Tournament) (derived : list Derived) (k : string) :
  tournamentsMap tournaments !! k = last (filter (λ t, t_id t = k) tournaments)
  ∧ SurfaceProfile.tournamentsMap tournaments !! k
    = last (filter (λ t, t_id t = k) tournaments)
  ∧ derivedMap derived !! k = last (filter (λ d, matchId d = k) derived).
Proof. repeat split; apply Map_of_last. Qed.

Lemma filter_sublist {A} (P : A → Prop) `{∀ x, Decision (P x)} (l1 l2 : list A) :
  l1 `sublist_of` l2 → filter P l1 `sublist_of` filter P l2.
Proof.
  induction 1 as [|x l1 l2 Hsub IH|x l1 l2 Hsub IH].
  - done.
  - rewrite !filter_cons. destruct (decide (P x)); [by constructor | done].
  - rewrite filter_cons. destruct (decide (P x)); [by constructor | done].
Qed.

Lemma omap_sublist {A B} (f : A → option B) (l1 l2 : list A) :
  l1 `sublist_of` l2 → omap f l1 `sublist_of` omap f l2.
Proof.
  induction 1 as [|x l1 l2 Hsub IH|x l1 l2 Hsub IH]; simpl.
  - done.
  - destruct (f x); [by constructor | done].
  - destruct (f x); [by constructor | done].
Qed.

(** X19: switching filters on only removes points.  Every group of the
    filtered chart is a sublist of the group of the same round of the
    unfiltered chart (same pairs, same order, some left out). *)
Theorem filters_only_remove_points
    (matches : list Match) (derived : list Derived) (tournaments : list Tournament)
    (selSurface : option Surface) (selSeries : option Series) (rounds : list Round)
    (r : Round) (l : list Pair) :
  groupByRound matches derived tournaments selSurface selSeries rounds !! r = Some l →
  ∃ l', groupByRound matches derived tournaments None None [] !! r = Some l'
        ∧ l `sublist_of` l'.
Proof.
  unfold groupByRound. rewrite !roundGroups_lookup.
  intros Hl.
  assert (pairs_of_round (derivedMap derived)
            (filteredMatches matches (tournamentsMap tournaments)
               selSurface selSeries rounds) r
          `sublist_of` pairs_of_round (derivedMap derived) matches r) as Hsub.
  { unfold pairs_of_round. apply omap_sublist, filter_sublist.
    apply filteredMatches_spec. }
  change (filteredMatches matches (tournamentsMap tournaments) None None [])
    with matches.
  destruct (pairs_of_round (derivedMap derived)
              (filteredMatches matches (tournamentsMap tournaments)
                 selSurface selSeries rounds) r) as [|p l0] eqn:Hf; [done|].
  injection Hl as <-.
  destruct (pairs_of_round (derivedMap derived) matches r) as [|p' l'] eqn:Hu.
  - by apply sublist_nil_r in Hsub.
  - eauto.
Qed.

(** The statement above, on the sample data. *)
Lemma filters_only_remove_points_witness :
  ∃ l', groupByRound demo_matches demo_derived demo_tournaments None None [] !! R1
          = Some l'
        ∧ [ {| p_match := mk_match "m1" "t-clay" "P1" "P2" R1;
               p_derived := {| matchId := "m1"; rankDiff := Some (5 # 1) |} |} ]
          `sublist_of` l'.
Proof.
  apply (filters_only_remove_points demo_matches demo_derived demo_tournaments
           (Some Clay) None [] R1).
  vm_compute. reflexivity.
Defined.

End LookupAndFilterFacts.
